(** * Computational physics portfolio: the two notebooks, over exact reals

    A shallow embedding of [Electric_Rad_Project.ipynb] (function [Erad]) and
    [Double_Pendulum_Project.ipynb] (functions [dpendulum] and [pcalc]).

    Python floats are modelled by the real numbers of the Standard Library,
    so every statement below is about exact real arithmetic.  Python
    exceptions are the values of [exn]; a computation that may raise returns a
    [result].  The [while] loops of [Erad] compare running sums of reals and
    are given fuel; the theorems show how much fuel is enough.  Module-level
    variables that a function reads without receiving them as arguments are
    passed as an explicit environment. *)

From Stdlib Require Import Reals Lra Lia ZArith.
From stdpp Require Import gmap strings list.

#[local] Open Scope R_scope.

(** ** Python values and exceptions *)

Module Py.

Inductive exn : Type :=
| ZeroDivisionError
| IndexError
| NameError (name : string)
| InvalidDimension.

Inductive result (A : Type) : Type :=
| Ok (a : A)
| Raise (e : exn).

Arguments Ok {A} a.
Arguments Raise {A} e.

#[export] Instance result_ret : MRet result := fun A a => Ok a.

#[export] Instance result_bind : MBind result := fun A B f m =>
  match m with
  | Ok a => f a
  | Raise e => Raise e
  end.

(** [x / y] on Python floats. *)
Definition truediv (x y : R) : result R :=
  if Req_dec_T y 0 then Raise ZeroDivisionError else Ok (x / y).

(** [l[n]] for a list or a one-dimensional array and [n >= 0]. *)
Definition getitem {A : Type} (l : list A) (n : nat) : result A :=
  match l !! n with
  | Some a => Ok a
  | None => Raise IndexError
  end.

(** [l[n] = v] on a one-dimensional array and [n >= 0]. *)
Definition setitem {A : Type} (l : list A) (n : nat) (v : A) : result (list A) :=
  if decide (n < length l)%nat then Ok (<[n := v]> l) else Raise IndexError.

(** A module-level variable read by name. *)
Definition global (G : gmap string R) (name : string) : result R :=
  match G !! name with
  | Some v => Ok v
  | None => Raise (NameError name)
  end.

(** [for x in xs: st = body(st, x)], stopping at the first exception. *)
Fixpoint for_each {S A : Type} (body : S -> A -> result S) (xs : list A) (st : S)
  : result S :=
  match xs with
  | [] => Ok st
  | x :: xs' => st' ← body st x; for_each body xs' st'
  end.

(** [[f(x) for x in xs]], built left to right, stopping at the first
    exception. *)
Fixpoint collect {A B : Type} (f : A -> result B) (xs : list A) : result (list B) :=
  match xs with
  | [] => Ok []
  | x :: xs' => y ← f x; ys ← collect f xs'; Ok (y :: ys)
  end.

(** [np.zeros(n)]. *)
Definition zeros (n : nat) : list R := replicate n 0.

(** [np.arange(0, n*h, h)] over the reals: the [n] values [0 + i*h]. *)
Definition arange (n : nat) (h : R) : list R :=
  map (fun i : nat => 0 + INR i * h) (seq 0 n).

End Py.

Import Py.

(** ** The vectors of vpython *)

Module Vpython.

Record vec : Type := mkvec { vx : R; vy : R; vz : R }.

(** [s * v] and [v * s] *)
Definition smul (s : R) (v : vec) : vec :=
  mkvec (s * vx v) (s * vy v) (s * vz v).

Definition vmul (v : vec) (s : R) : vec :=
  mkvec (vx v * s) (vy v * s) (vz v * s).

(** [v / s] *)
Definition vdiv (v : vec) (s : R) : vec :=
  mkvec (vx v / s) (vy v / s) (vz v / s).

Definition vsub (u v : vec) : vec :=
  mkvec (vx u - vx v) (vy u - vy v) (vz u - vz v).

Definition dot (u v : vec) : R :=
  vx u * vx v + vy u * vy v + vz u * vz v.

Definition mag (v : vec) : R :=
  sqrt (vx v ^ 2 + vy v ^ 2 + vz v ^ 2).

(** The unit vector along [v]; vpython gives the zero vector for the zero
    vector. *)
Definition hat (v : vec) : vec :=
  if Rlt_dec 0 (mag v) then vdiv v (mag v) else mkvec 0 0 0.

End Vpython.

Import Vpython.

(** ** Electric_Rad_Project.ipynb *)

Module ElectricRad.

(** The constants that [Erad] binds before its loops (the unused [mu_0],
    [R] and [E_0] are left out). *)
Definition q : R := 1.6e-19.
Definition alpha : R := 7.4e-41.
Definition e_0 : R := 8.85e-12.
Definition c : R := 3e8.
Definition a : R := 5.29e-11.
Definition k : R := q ^ 2 / alpha.
Definition m : R := 9.11e-31.
Definition A : R := 4 * a.
Definition oofpez : R := 9e9.

Definition omega : R := sqrt (k / m).

Definition h : R := 1e-18.
Definition Nsteps : nat := 1000.

Definition t : list R := arange Nsteps h.
Definition y : list R := map (fun ti => A * cos (omega * ti)) t.
Definition Ay : R := - A * omega ^ 2.
Definition Avec : vec := smul Ay (mkvec 0 1 0).

Definition rsource : list vec := map (fun yi => mkvec 0 yi 0) y.

Definition N : nat := 30.
Definition x : R := A * 5 * 10 ^ 11.
Definition L : R := 2 * x.
Definition dx : R := L / INR N.

(** The direction [vec(cos(phi)*cos(theta), sin(theta), sin(phi)*cos(theta))]. *)
Definition direction (theta phi : R) : vec :=
  mkvec (cos phi * cos theta) (sin theta) (sin phi * cos theta).

(** The loop nest that fills [robs], as a function of the locals it reads:
    the radial start [x0], the increment [dx], the count [N] and the two
    angular steps. *)
Section ObservationLoops.

Variables (x0 dx : R) (N : nat) (dtheta dphi : R).

(** [for n in range(0,N): robs.append(x*vec(...)); x = x + dx] *)
Fixpoint radial_loop (n : nat) (theta phi x : R) (robs : list vec) : R * list vec :=
  match n with
  | O => (x, robs)
  | S n' =>
      radial_loop n' theta phi (x + dx) (robs ++ [smul x (direction theta phi)])
  end.

(** [while phi < 2*np.pi: x = x0; <radial loop>; phi = phi + dphi] *)
Fixpoint phi_loop (fuel : nat) (theta phi : R) (robs : list vec)
  : option (R * list vec) :=
  match fuel with
  | O => None
  | S fuel' =>
      if Rlt_dec phi (2 * PI)
      then phi_loop fuel' theta (phi + dphi)
             (snd (radial_loop N theta phi x0 robs))
      else Some (phi, robs)
  end.

(** [while theta < np.pi/2: phi = 0; <phi loop>; theta = theta + dtheta] *)
Fixpoint theta_loop (fuel : nat) (theta : R) (robs : list vec)
  : option (list vec) :=
  match fuel with
  | O => None
  | S fuel' =>
      if Rlt_dec theta (PI / 2)
      then match phi_loop fuel' theta 0 robs with
           | Some (_, robs') => theta_loop fuel' (theta + dtheta) robs'
           | None => None
           end
      else Some robs
  end.

End ObservationLoops.

(** [dot(Avec,hat(r)) * hat(r) - Avec] *)
Definition a_perp (r : vec) : vec :=
  vsub (smul (dot Avec (hat r)) (hat r)) Avec.

(** The product assigned to [Efield], once the quotient [s] and the time
    [ti = t[i]] are known. *)
Definition Efield_value (s : R) (r : vec) (ti : R) : vec :=
  vmul (vmul (smul s (a_perp r)) (cos (omega * (ti + mag r / c)))) (13 ^ 6).

(** The right-hand side of the assignment to [Efield], for the observation
    location [r] and the step [i].  Python evaluates the quotient first. *)
Definition Efield (r : vec) (i : nat) : result vec :=
  s ← truediv (oofpez * q) (c ^ 2 * mag r);
  ti ← getitem t i;
  Ok (Efield_value s r ti).

(** The inner loop over the steps, for one location. *)
Definition Efields (r : vec) : result (list vec) :=
  collect (Efield r) (seq 0 Nsteps).

(** The outer loop over the locations: the table [Erad[n][i]]. *)
Definition Erad_table (robs : list vec) : result (list (list vec)) :=
  collect Efields robs.

(** The lines that fill [robs], from [theta = -np.pi/2] to the end of the
    loops, for given radial locals: [None] when the fuel runs out before the
    loops end. *)
Definition observation_grid (x0 dx : R) (N : nat) (fuel : nat)
  (numTheta numPhi : Z) : option (result (list vec)) :=
  match truediv PI (IZR numTheta) with
  | Raise e => Some (Raise e)
  | Ok dtheta =>
      match truediv (2 * PI) (IZR numPhi) with
      | Raise e => Some (Raise e)
      | Ok dphi =>
          match theta_loop x0 dx N dtheta dphi fuel (- PI / 2) [] with
          | Some rs => Some (Ok rs)
          | None => None
          end
      end
  end.

(** The observation locations of [Erad(numTheta, numPhi)]. *)
Definition robs (fuel : nat) (numTheta numPhi : Z) : option (result (list vec)) :=
  observation_grid x dx N fuel numTheta numPhi.

(** [Erad(numTheta, numPhi)] up to the animation: the locations and the
    table of fields. *)
Definition Erad (fuel : nat) (numTheta numPhi : Z)
  : option (result (list vec * list (list vec))) :=
  match robs fuel numTheta numPhi with
  | None => None
  | Some (Raise e) => Some (Raise e)
  | Some (Ok rs) =>
      Some (match Erad_table rs with
            | Ok table => Ok (rs, table)
            | Raise e => Raise e
            end)
  end.

(** *** Notions used in the statements *)

(** The time of step [i]: the entry [t[i]] of the array of times. *)
Definition t_at (i : nat) : R := INR i * h.

(** The field that the code's expression gives at location [r] for a source
    time [ti], whether or not [ti] is one of the sampled times. *)
Definition Efield_at (r : vec) (ti : R) : vec :=
  Efield_value (oofpez * q / (c ^ 2 * mag r)) r ti.

(** The location on the x axis at the radial start: the unit vector along it
    is the x axis and the accelerating charge moves across it. *)
Definition p_x : vec := mkvec x 0 0.

(** The neighbour of [p_x] on its radial run: the location of index 61. *)
Definition p_x_next : vec := smul ((x + dx) / x) p_x.

(** The amplitudes along y at [p_x]: of the code and of the specification. *)
Definition amp_code : R := oofpez * q / (c ^ 2 * x) * (A * omega ^ 2) * 13 ^ 6.
Definition amp_spec : R := q / (4 * PI * e_0 * c ^ 2 * x) * (A * omega ^ 2).

(** One radial run: [n] locations along one direction, from the radius [x0]
    in steps of [dx]. *)
Definition radial_run (x0 dx : R) (n : nat) (theta phi : R) : list vec :=
  map (fun j => smul (x0 + INR j * dx) (direction theta phi)) (seq 0 n).

(** The grid in closed form: [nT] polar rows of [nP] azimuths each, radial
    runs in the order of the loops. *)
Definition grid_points (x0 dx : R) (n : nat) (dtheta dphi : R) (nT nP : nat)
  : list vec :=
  flat_map (fun k =>
    flat_map (fun j => radial_run x0 dx n (- PI / 2 + INR k * dtheta) (0 + INR j * dphi))
      (seq 0 nP)) (seq 0 nT).

(** The phase that the wave gains from one location of a run to the next,
    and from the charge to [p_x]. *)
Definition run_phase : R := omega * (dx / c).
Definition travel_phase : R := omega * (x / c).

(** The field of the specification, section 4.5, written from its words and
    used for comparison only. *)
Definition field_spec (r : vec) (ti : R) : vec :=
  vmul (smul (q / (4 * PI * e_0 * c ^ 2 * mag r))
          (vsub (smul (dot Avec (hat r)) (hat r)) Avec))
       (cos (omega * (ti - mag r / c))).

End ElectricRad.

(** ** State vectors: one-dimensional numpy arrays *)

Module Vector.

(** [u + v] on arrays of one length. *)
Definition add (u v : list R) : list R := zip_with Rplus u v.

(** [s * v] *)
Definition scale (s : R) (v : list R) : list R := map (Rmult s) v.

End Vector.

(** ** The module [ode] *)

Module Ode.

(** Modelled from the spec: [ode.RK4], which the pendulum notebook imports and
    calls, is not among the sources.  Section 4.1 gives its contract
    [step(derivFn, state, t, h)], the four stages and the error
    [InvalidDimension] when [derivFn] returns a vector of another length than
    [state]. *)
Definition stage (derivFn : list R -> R -> result (list R)) (state : list R)
  (t : R) : result (list R) :=
  k ← derivFn state t;
  if decide (length k = length state) then Ok k else Raise InvalidDimension.

(** Modelled from the spec: the step of section 4.1, stage by stage. *)
Definition RK4 (derivFn : list R -> R -> result (list R)) (state : list R)
  (t h : R) : result (list R) :=
  k1 ← stage derivFn state t;
  k2 ← stage derivFn (Vector.add state (Vector.scale (h / 2) k1)) (t + h / 2);
  k3 ← stage derivFn (Vector.add state (Vector.scale (h / 2) k2)) (t + h / 2);
  k4 ← stage derivFn (Vector.add state (Vector.scale h k3)) (t + h);
  Ok (Vector.add state
        (Vector.scale (h / 6)
           (Vector.add (Vector.add (Vector.add k1 (Vector.scale 2 k2))
                          (Vector.scale 2 k3)) k4))).

(** Exponential decay [dS/dt = -S], one step of size 1 from [S = 1]. *)
Definition decay (s : list R) (t : R) : result (list R) := Ok (Vector.scale (-1) s).

End Ode.

(** ** Double_Pendulum_Project.ipynb *)

Module DoublePendulum.

Definition g : R := 9.8.

(** [dpendulum(dep, t)].  The masses and lengths are not arguments: the
    function reads the module-level [m1], [m2], [L2] and [L1], here from the
    environment [G], in the order in which Python meets them.  The two
    quotients are numpy quotients, which do not raise; where a divisor is zero
    numpy yields [inf] or [nan], which the reals lack, and nothing below rests
    on the quotient there. *)
Definition dpendulum (G : gmap string R) (dep : list R) (t : R)
  : result (list R) :=
  theta1 ← getitem dep 0;
  omega1 ← getitem dep 1;
  theta2 ← getitem dep 2;
  omega2 ← getitem dep 3;
  m1 ← global G "m1";
  m2 ← global G "m2";
  let A1 := - g * (2 * m1 + m2) * sin theta1 - m2 * g * sin (theta1 - 2 * theta2) in
  L2 ← global G "L2";
  L1 ← global G "L1";
  let A2 := - 2 * sin (theta1 - theta2) * m2
            * (omega2 ^ 2 * L2 + omega1 ^ 2 * L1 * cos (theta1 - theta2)) in
  let A3 := L1 * (2 * m1 + m2 - m2 * cos (2 * theta1 - 2 * theta2)) in
  let B1 := 2 * sin (theta1 - theta2)
            * (omega1 ^ 2 * L1 * (m1 + m2) + g * (m1 + m2) * cos theta1
               + omega2 ^ 2 * L2 * m2 * cos (theta1 - theta2)) in
  let B2 := L2 * (2 * m1 + m2 - m2 * cos (2 * theta1 - 2 * theta2)) in
  Ok [omega1; (A1 + A2) / A3; omega2; B1 / B2].

(** The local variables that the time loop of [pcalc] updates. *)
Record locals : Type := mklocals {
  data : list R;
  t : R;
  tarr : list R;
  theta1arr : list R;
  theta2arr : list R;
  omega1arr : list R;
  omega2arr : list R
}.

Section Pcalc.

(** The stepper [ode.RK4] and the module-level environment at call time. *)
Variable RK4 : (list R -> R -> result (list R)) -> list R -> R -> R -> result (list R).
Variable G : gmap string R.

(** The body of [for n in range(1,Nsteps)]. *)
Definition time_step (h : R) (st : locals) (n : nat) : result locals :=
  data' ← RK4 (dpendulum G) (data st) (t st) h;
  let t' := t st + h in
  tarr' ← setitem (tarr st) n t';
  d0 ← getitem data' 0;
  theta1arr' ← setitem (theta1arr st) n d0;
  d1 ← getitem data' 1;
  omega1arr' ← setitem (omega1arr st) n d1;
  d2 ← getitem data' 2;
  theta2arr' ← setitem (theta2arr st) n d2;
  d3 ← getitem data' 3;
  omega2arr' ← setitem (omega2arr st) n d3;
  Ok (mklocals data' t' tarr' theta1arr' theta2arr' omega1arr' omega2arr').

(** The body of [pcalc] as a function of the values it binds first: the
    initial angles and speeds, the initial time, the step and the number of
    steps.  It returns [theta1arr, omega1arr, theta2arr, omega2arr, tarr]. *)
Definition pcalc_from (theta1_0 theta2_0 omega1_0 omega2_0 t0 h : R) (Nsteps : nat)
  : result (list R * list R * list R * list R * list R) :=
  let data0 := [theta1_0; omega1_0; theta2_0; omega2_0] in
  tarr0 ← setitem (zeros Nsteps) 0%nat t0;
  theta1arr0 ← setitem (zeros Nsteps) 0%nat theta1_0;
  theta2arr0 ← setitem (zeros Nsteps) 0%nat theta2_0;
  omega1arr0 ← setitem (zeros Nsteps) 0%nat omega1_0;
  omega2arr0 ← setitem (zeros Nsteps) 0%nat omega2_0;
  st ← for_each (time_step h) (seq 1 (Nsteps - 1))
         (mklocals data0 t0 tarr0 theta1arr0 theta2arr0 omega1arr0 omega2arr0);
  Ok (theta1arr st, omega1arr st, theta2arr st, omega2arr st, tarr st).

(** [pcalc(L1,m1,L2,m2)]: the four arguments are bound and never read. *)
Definition pcalc (L1 m1 L2 m2 : R)
  : result (list R * list R * list R * list R * list R) :=
  let h := 1e-4 in
  pcalc_from (PI / 2) 0 0 0 0 h (Z.to_nat (Int_part (10 / h))).

End Pcalc.

(** The module-level variables as the notebook's cells set them before each
    call of [pcalc]. *)
Definition cell (L1 L2 m1 m2 : R) : gmap string R :=
  <["L1" := L1]> (<["L2" := L2]> (<["m1" := m1]> (<["m2" := m2]> ∅))).

Definition cell9 : gmap string R := cell 4 4 8 2.
Definition cell12 : gmap string R := cell 4 4 2 8.
Definition cell15 : gmap string R := cell 8 2 4 4.
Definition cell18 : gmap string R := cell 2 8 4 4.

(** What holds of the locals of [pcalc] when the counter of the time loop is
    about to take the value [n]: the entries below [n] are written, and [t]
    is [n - 1] steps after [t0]. *)
Definition loop_inv (theta1_0 theta2_0 omega1_0 omega2_0 t0 h : R) (Nsteps : nat)
  (n : nat) (st : locals) : Prop :=
  length (data st) = 4%nat /\
  t st = t0 + INR n * h - h /\
  (length (tarr st) = Nsteps /\ length (theta1arr st) = Nsteps /\
   length (theta2arr st) = Nsteps /\ length (omega1arr st) = Nsteps /\
   length (omega2arr st) = Nsteps) /\
  (tarr st !! 0%nat = Some t0 /\ theta1arr st !! 0%nat = Some theta1_0 /\
   theta2arr st !! 0%nat = Some theta2_0 /\ omega1arr st !! 0%nat = Some omega1_0 /\
   omega2arr st !! 0%nat = Some omega2_0) /\
  forall j, (j < n)%nat -> tarr st !! j = Some (t0 + INR j * h).

End DoublePendulum.

(** ** The animation loop of [Erad] *)

Module ElectricRadAnimation.

Import ElectricRad.

(** One pass of [for i in range(1,Nsteps)]: the position given to the
    electron, [rsource[i]*10**11], then the axis given to every arrow,
    [Erad[n][i]] for [n] in [range(0,RadNum)]. *)
Definition frame (table : list (list vec)) (i : nat) : result (vec * list vec) :=
  pos ← getitem rsource i;
  axes ← collect (fun row : list vec => getitem row i) table;
  Ok (vmul pos (10 ^ 11), axes).

(** The loop: the scenes it draws, in order. *)
Definition animate (table : list (list vec)) : result (list (vec * list vec)) :=
  collect (frame table) (seq 1 (Nsteps - 1)).

End ElectricRadAnimation.

(** ** The terms of [dpendulum] and the function [animation] *)

Module PendulumTerms.

(** The two divisors of [dpendulum]: [A3] and [B2]. *)
Definition A3 (L1 m1 m2 theta1 theta2 : R) : R :=
  L1 * (2 * m1 + m2 - m2 * cos (2 * theta1 - 2 * theta2)).

Definition B2 (L2 m1 m2 theta1 theta2 : R) : R :=
  L2 * (2 * m1 + m2 - m2 * cos (2 * theta1 - 2 * theta2)).

(** The entries of index [j] of the four arrays that [pcalc] fills, in the
    order of the state vector. *)
Definition state_at (st : DoublePendulum.locals) (j : nat) : option (list R) :=
  th1 ← DoublePendulum.theta1arr st !! j;
  om1 ← DoublePendulum.omega1arr st !! j;
  th2 ← DoublePendulum.theta2arr st !! j;
  om2 ← DoublePendulum.omega2arr st !! j;
  Some [th1; om1; th2; om2].

End PendulumTerms.

Module PendulumAnimation.

(** What [animation] can raise: a Python exception, or numpy's [ValueError]
    when two arrays cannot be broadcast together. *)
Inductive error : Type :=
| Exn (e : exn)
| ValueError.

Inductive outcome (A : Type) : Type :=
| Drawn (a : A)
| Failed (e : error).

Arguments Drawn {A} a.
Arguments Failed {A} e.

#[export] Instance outcome_bind : MBind outcome := fun A B f m =>
  match m with
  | Drawn a => f a
  | Failed e => Failed e
  end.

Definition lift {A : Type} (r : result A) : outcome A :=
  match r with
  | Ok a => Drawn a
  | Raise e => Failed (Exn e)
  end.

(** [u + v] and [u - v] on one-dimensional arrays: entry by entry for one
    length; an array of one entry is stretched to the other's length; other
    shapes do not go together. *)
Definition broadcast (f : R -> R -> R) (u v : list R) : outcome (list R) :=
  if decide (length u = length v) then Drawn (zip_with f u v)
  else match u, v with
       | [a], _ => Drawn (map (f a) v)
       | _, [b] => Drawn (map (fun a => f a b) u)
       | _, _ => Failed ValueError
       end.

(** What one pass of the loop sets on the four objects. *)
Record frame : Type := mkframe {
  ball1_pos : vec;
  rod1_axis : vec;
  ball2_pos : vec;
  rod2_pos : vec;
  rod2_axis : vec
}.

(** The scene for the index [n]: [ball1.pos = vec(x1array[n],y1array[n],0)],
    [rod1.axis = ball1.pos], [ball2.pos = vec(x2array[n],y2array[n],0)],
    [rod2.pos = ball1.pos], [rod2.axis = ball2.pos - ball1.pos]. *)
Definition draw (x1array y1array x2array y2array : list R) (n : nat)
  : outcome frame :=
  x1 ← lift (getitem x1array n);
  y1 ← lift (getitem y1array n);
  let ball1 := mkvec x1 y1 0 in
  x2 ← lift (getitem x2array n);
  y2 ← lift (getitem y2array n);
  let ball2 := mkvec x2 y2 0 in
  Drawn (mkframe ball1 ball1 ball2 ball1 (vsub ball2 ball1)).

(** The scenes for a range of indices, stopping at the first exception. *)
Fixpoint draw_all (scene : nat -> outcome frame) (ns : list nat)
  : outcome (list frame) :=
  match ns with
  | [] => Drawn []
  | n :: ns' => f ← scene n; fs ← draw_all scene ns'; Drawn (f :: fs)
  end.

(** [animation(p1, m1, p2, m2)]: the lengths are not arguments but the
    module-level [L1] and [L2]; the masses only set the radii of the balls.
    The result is the list of the scenes: the one the objects are created
    with, then one for each pass of [for n in range(1,Nsteps)]. *)
Definition animation (G : gmap string R) (p1 : list R) (m1 : R) (p2 : list R)
  (m2 : R) : outcome (list frame) :=
  L1 ← lift (global G "L1");
  let x1array := map (fun a => L1 * sin a) p1 in
  let y1array := map (fun a => - L1 * cos a) p1 in
  L2 ← lift (global G "L2");
  x2array ← broadcast Rplus x1array (map (fun a => L2 * sin a) p2);
  y2array ← broadcast Rminus y1array (map (fun a => L2 * cos a) p2);
  first ← draw x1array y1array x2array y2array 0;
  let h := 1e-4 in
  let Nsteps := Z.to_nat (Int_part (10 / h)) in
  rest ← draw_all (draw x1array y1array x2array y2array) (seq 1 (Nsteps - 1));
  Drawn (first :: rest).

(** The scene of two angles, in closed form: the first ball at the end of a
    rod of length [L1] from the pivot, the second at the end of a rod of
    length [L2] from the first. *)
Definition scene_of (L1 L2 a1 a2 : R) : frame :=
  let ball1 := mkvec (L1 * sin a1) (- L1 * cos a1) 0 in
  let ball2 := mkvec (L1 * sin a1 + L2 * sin a2) (- L1 * cos a1 - L2 * cos a2) 0 in
  mkframe ball1 ball1 ball2 ball1 (vsub ball2 ball1).

End PendulumAnimation.

(** * Properties *)

(** ** The result monad and the loops *)

Section Loops.

Context {S A B : Type}.

Lemma Ok_inj (a b : A) : Ok a = Ok b -> a = b.
Proof. intros H. now inversion H. Qed.

Lemma collect_ok (f : A -> result B) (g : A -> B) (xs : list A) :
  (forall x, x ∈ xs -> f x = Ok (g x)) -> collect f xs = Ok (map g xs).
Proof.
  induction xs as [|x xs IH]; intros Hf; simpl.
  - reflexivity.
  - rewrite (Hf x) by apply list_elem_of_here. simpl.
    rewrite IH; [reflexivity|].
    intros z Hz. apply Hf. now apply list_elem_of_further.
Qed.


(** A loop over [range(a, a+len)] that keeps an invariant indexed by the
    next value of the counter. *)
Lemma for_each_range (Inv : nat -> S -> Prop) (body : S -> nat -> result S)
  (len a : nat) (st : S) :
  Inv a st ->
  (forall n s, (a <= n < a + len)%nat -> Inv n s ->
     exists s', body s n = Ok s' /\ Inv (Datatypes.S n) s') ->
  exists st', for_each body (seq a len) st = Ok st' /\ Inv (a + len)%nat st'.
Proof.
  revert a st. induction len as [|len IH]; intros a st Ha Hbody; simpl.
  - exists st. split; [reflexivity|]. now rewrite Nat.add_0_r.
  - destruct (Hbody a st) as (s' & Hs' & Hinv); [lia|exact Ha|].
    rewrite Hs'. simpl.
    destruct (IH (Datatypes.S a) s' Hinv) as (st' & Hst' & Hfin).
    + intros n s Hn. apply Hbody. lia.
    + exists st'. split; [exact Hst'|].
      now replace (a + Datatypes.S len)%nat with (Datatypes.S a + len)%nat by lia.
Qed.

End Loops.

(** ** Vectors *)

Section VectorFacts.

Lemma mag_nonneg (v : vec) : 0 <= mag v.
Proof. apply sqrt_pos. Qed.

Lemma mag_square (v : vec) : mag v * mag v = vx v ^ 2 + vy v ^ 2 + vz v ^ 2.
Proof. unfold mag. apply sqrt_sqrt. nra. Qed.

Lemma hat_of_nonzero (v : vec) : 0 < mag v -> hat v = vdiv v (mag v).
Proof. intros H. unfold hat. now destruct (Rlt_dec 0 (mag v)). Qed.

Lemma hat_of_zero (v : vec) : mag v = 0 -> hat v = mkvec 0 0 0.
Proof.
  intros H. unfold hat. destruct (Rlt_dec 0 (mag v)) as [Hlt|]; [|reflexivity].
  rewrite H in Hlt. lra.
Qed.

(** The unit vector along [v] has the component [mag v] along [v]. *)
Lemma dot_hat_self (v : vec) : 0 < mag v -> dot (hat v) v = mag v.
Proof.
  intros H. rewrite (hat_of_nonzero v H). unfold dot, vdiv. cbn [vx vy vz].
  pose proof (mag_square v) as Hsq.
  apply (Rmult_eq_reg_r (mag v)); [|lra].
  rewrite Hsq. field. lra.
Qed.

Lemma mag_scaled (s : R) (v : vec) : 0 <= s -> mag v = 1 -> mag (smul s v) = s.
Proof.
  intros Hs Hv. pose proof (mag_square v) as Hsq. rewrite Hv in Hsq.
  unfold mag, smul. cbn [vx vy vz].
  replace ((s * vx v) ^ 2 + (s * vy v) ^ 2 + (s * vz v) ^ 2)
    with (s * s * (vx v ^ 2 + vy v ^ 2 + vz v ^ 2)) by ring.
  rewrite <- Hsq, Rmult_1_r, Rmult_1_r. now apply sqrt_square.
Qed.

End VectorFacts.

(** ** The radiating charge *)

Module ElectricRadProps.

Import ElectricRad.

Lemma c_pos : 0 < c.
Proof. unfold c. lra. Qed.

Lemma x_value : x = 105.8.
Proof. unfold x, A, a. lra. Qed.

Lemma x_pos : 0 < x.
Proof. rewrite x_value. lra. Qed.

Lemma dx_pos : 0 < dx.
Proof.
  unfold dx, L, N. rewrite x_value.
  replace (INR 30) with 30 by (simpl; lra). lra.
Qed.

Lemma k_over_m_pos : 0 < k / m.
Proof. unfold k, m, q, alpha. lra. Qed.

Lemma omega_pos : 0 < omega.
Proof. apply sqrt_lt_R0, k_over_m_pos. Qed.

Lemma omega_square : omega ^ 2 = k / m.
Proof. unfold omega. apply pow2_sqrt. pose proof k_over_m_pos. lra. Qed.

Lemma Avec_components : Avec = mkvec 0 (- A * omega ^ 2) 0.
Proof. unfold Avec, Ay, smul. cbn [vx vy vz]. f_equal; ring. Qed.

Lemma lookup_map_seq {B : Type} (f : nat -> B) (n a i : nat) :
  (i < n)%nat -> map f (seq a n) !! i = Some (f (a + i)%nat).
Proof.
  revert a i. induction n as [|n IH]; intros a i Hi; [lia|].
  destruct i as [|i]; simpl.
  - now rewrite Nat.add_0_r.
  - rewrite IH by lia. f_equal. f_equal. lia.
Qed.

Lemma getitem_t (i : nat) : (i < Nsteps)%nat -> getitem t i = Ok (t_at i).
Proof.
  intros Hi. unfold getitem, t, arange. rewrite lookup_map_seq by exact Hi.
  unfold t_at. simpl. f_equal. ring.
Qed.

Lemma getitem_t_none (i : nat) : (Nsteps <= i)%nat -> getitem t i = Raise IndexError.
Proof.
  intros Hi. unfold getitem.
  rewrite (proj2 (lookup_ge_None t i)); [reflexivity|].
  unfold t, arange. now rewrite length_map, length_seq.
Qed.

Lemma quotient_defined (r : vec) :
  0 < mag r ->
  truediv (oofpez * q) (c ^ 2 * mag r) = Ok (oofpez * q / (c ^ 2 * mag r)).
Proof.
  intros Hr. unfold truediv.
  destruct (Req_dec_T (c ^ 2 * mag r) 0) as [H0|]; [|reflexivity].
  assert (0 < c ^ 2 * mag r)
    by (apply Rmult_lt_0_compat; [apply pow_lt, c_pos|exact Hr]).
  lra.
Qed.


(** Away from the origin and within the sampled steps the assignment to
    [Efield] succeeds. *)
Lemma Efield_defined (r : vec) (i : nat) :
  0 < mag r -> (i < Nsteps)%nat -> Efield r i = Ok (Efield_at r (t_at i)).
Proof.
  intros Hr Hi. unfold Efield.
  rewrite (quotient_defined r Hr). simpl.
  rewrite (getitem_t i Hi). reflexivity.
Qed.


Lemma Efields_defined (r : vec) :
  0 < mag r ->
  Efields r = Ok (map (fun i => Efield_at r (t_at i)) (seq 0 Nsteps)).
Proof.
  intros Hr. unfold Efields. apply collect_ok.
  intros i Hi. apply Efield_defined; [exact Hr|].
  apply elem_of_seq in Hi. lia.
Qed.

(** The part of [a] across [r]: what is left after the component along [r]
    is taken away has no component along [r]. *)
Lemma across_is_transverse (a r : vec) :
  0 < mag r -> dot (vsub (smul (dot a (hat r)) (hat r)) a) r = 0.
Proof.
  intros Hr. rewrite (hat_of_nonzero r Hr).
  pose proof (mag_square r) as Hsq.
  unfold dot, vsub, smul, vdiv. cbn [vx vy vz].
  set (M := mag r) in *.
  replace ((((vx a * (vx r / M) + vy a * (vy r / M) + vz a * (vz r / M)) * (vx r / M) - vx a) * vx r
           + ((vx a * (vx r / M) + vy a * (vy r / M) + vz a * (vz r / M)) * (vy r / M) - vy a) * vy r
           + ((vx a * (vx r / M) + vy a * (vy r / M) + vz a * (vz r / M)) * (vz r / M) - vz a) * vz r))
    with ((vx a * vx r + vy a * vy r + vz a * vz r)
          * ((vx r ^ 2 + vy r ^ 2 + vz r ^ 2) - M * M) / (M * M))
    by (field; lra).
  rewrite <- Hsq. field. lra.
Qed.

Lemma dot_Efield_value (s ti : R) (r v : vec) :
  dot (Efield_value s r ti) v
  = s * cos (omega * (ti + mag r / c)) * 13 ^ 6 * dot (a_perp r) v.
Proof. unfold Efield_value, dot, vmul, smul. cbn [vx vy vz]. ring. Qed.

Lemma Efield_value_multiple (s ti : R) (r : vec) :
  Efield_value s r ti
  = smul (s * cos (omega * (ti + mag r / c)) * 13 ^ 6) (a_perp r).
Proof. unfold Efield_value, vmul, smul. cbn [vx vy vz]. f_equal; ring. Qed.

(** C8. For every observation location [r] with [|r| > 0] and every step
    [i], the field that [Erad] computes is transverse to the line of sight:
    its scalar product with [r] is zero. *)
Theorem Efield_transverse (r : vec) (i : nat) :
  0 < mag r -> (i < Nsteps)%nat ->
  exists E, Efield r i = Ok E /\ dot E r = 0.
Proof.
  intros Hr Hi. exists (Efield_at r (t_at i)). split.
  - now apply Efield_defined.
  - unfold Efield_at. rewrite dot_Efield_value. unfold a_perp.
    rewrite (across_is_transverse Avec r Hr). ring.
Qed.

Lemma mag_x_axis (s : R) : 0 < s -> mag (mkvec s 0 0) = s.
Proof.
  intros Hs. unfold mag. cbn [vx vy vz].
  replace (s ^ 2 + 0 ^ 2 + 0 ^ 2) with (s * s) by ring.
  apply sqrt_square. lra.
Qed.

Lemma Efield_transverse_witness :
  exists E, Efield (mkvec x 0 0) 0 = Ok E /\ dot E (mkvec x 0 0) = 0.
Proof.
  apply (Efield_transverse (mkvec x 0 0) 0).
  - rewrite (mag_x_axis x x_pos). exact x_pos.
  - unfold Nsteps. lia.
Defined.

(** C10. At a fixed observation location [r] with [|r| > 0] the direction of
    the field does not change with time: the loop over the steps yields
    [Nsteps] vectors, each a real multiple of the one vector
    [(Avec . hat r) hat r - Avec], where [Avec] is the constant
    [(0, -A*omega^2, 0)]. *)
Theorem Efields_fixed_direction (r : vec) :
  0 < mag r ->
  Avec = mkvec 0 (- A * omega ^ 2) 0 /\
  exists row, Efields r = Ok row /\ length row = Nsteps /\
    forall E, E ∈ row ->
      exists s, E = smul s (vsub (smul (dot Avec (hat r)) (hat r)) Avec).
Proof.
  intros Hr. split; [exact Avec_components|].
  eexists. split; [apply (Efields_defined r Hr)|]. split.
  - now rewrite length_map, length_seq.
  - intros E HE. apply list_elem_of_In, in_map_iff in HE.
    destruct HE as (i & <- & _).
    eexists. unfold Efield_at. rewrite Efield_value_multiple. reflexivity.
Qed.

Lemma Efields_fixed_direction_witness :
  Avec = mkvec 0 (- A * omega ^ 2) 0 /\
  exists row, Efields (mkvec x 0 0) = Ok row /\ length row = Nsteps /\
    forall E, E ∈ row ->
      exists s, E = smul s (vsub (smul (dot Avec (hat (mkvec x 0 0)))
                                    (hat (mkvec x 0 0))) Avec).
Proof.
  apply (Efields_fixed_direction (mkvec x 0 0)).
  rewrite (mag_x_axis x x_pos). exact x_pos.
Defined.

(** *** The code against the formula of the specification *)

Lemma mag_p_x : mag p_x = x.
Proof. apply mag_x_axis, x_pos. Qed.

Lemma hat_p_x : hat p_x = mkvec 1 0 0.
Proof.
  rewrite hat_of_nonzero by (rewrite mag_p_x; exact x_pos).
  rewrite mag_p_x. unfold vdiv, p_x. cbn [vx vy vz].
  pose proof x_pos. f_equal; field; lra.
Qed.

Lemma a_perp_p_x : a_perp p_x = mkvec 0 (A * omega ^ 2) 0.
Proof.
  unfold a_perp. rewrite hat_p_x, Avec_components.
  unfold vsub, smul, dot. cbn [vx vy vz]. f_equal; ring.
Qed.

Lemma A_omega2_pos : 0 < A * omega ^ 2.
Proof.
  rewrite omega_square. pose proof k_over_m_pos.
  apply Rmult_lt_0_compat; [unfold A, a; lra|assumption].
Qed.

Lemma vy_Efield_at_p_x (ti : R) :
  vy (Efield_at p_x ti) = amp_code * cos (omega * ti + omega * (x / c)).
Proof.
  unfold Efield_at, Efield_value. rewrite a_perp_p_x, mag_p_x.
  unfold vmul, smul, amp_code. cbn [vx vy vz].
  replace (omega * (ti + x / c)) with (omega * ti + omega * (x / c)) by ring.
  ring.
Qed.

Lemma vy_field_spec_p_x (ti : R) :
  vy (field_spec p_x ti) = amp_spec * cos (omega * ti - omega * (x / c)).
Proof.
  unfold field_spec. fold (a_perp p_x). rewrite a_perp_p_x, mag_p_x.
  unfold vmul, smul, amp_spec. cbn [vx vy vz].
  replace (omega * (ti - x / c)) with (omega * ti - omega * (x / c)) by ring.
  ring.
Qed.

Lemma amp_spec_pos : 0 < amp_spec.
Proof.
  unfold amp_spec. pose proof A_omega2_pos. pose proof PI_RGT_0.
  apply Rmult_lt_0_compat; [|assumption].
  apply Rdiv_lt_0_compat; [unfold q; lra|].
  rewrite x_value. unfold e_0, c. nra.
Qed.

(** The rounded Coulomb constant times the display factor exceeds the
    constant of the specification. *)
Lemma amp_spec_lt_code : amp_spec < amp_code.
Proof.
  unfold amp_spec, amp_code. pose proof A_omega2_pos as HA.
  pose proof PI2_3_2 as HPI. pose proof x_pos as Hx.
  set (W := A * omega ^ 2) in *.
  apply Rmult_lt_reg_r with (r := / W); [apply Rinv_0_lt_compat; exact HA|].
  replace (q / (4 * PI * e_0 * c ^ 2 * x) * W * / W)
    with (q / (c ^ 2 * x) * / (4 * PI * e_0))
    by (unfold e_0, c; field; repeat split; lra).
  replace (oofpez * q / (c ^ 2 * x) * W * 13 ^ 6 * / W)
    with (q / (c ^ 2 * x) * (oofpez * 13 ^ 6))
    by (unfold c; field; repeat split; lra).
  apply Rmult_lt_compat_l.
  - rewrite x_value. unfold q, c. lra.
  - apply Rlt_trans with (r2 := / (4 * 3 * e_0)).
    + apply Rinv_lt_contravar; unfold e_0; nra.
    + unfold e_0, oofpez. lra.
Qed.

(** *** Bounds on the phases *)

Lemma PI_bounds : 3.14159265358 < PI < 3.1415926536.
Proof.
  pose proof (PI_2_3_7_ineq 5) as [Hlo Hhi].
  unfold sum_f_R0, tg_alt, PI_2_3_7_tg, Ratan_seq in Hlo, Hhi.
  simpl in Hlo, Hhi. split; lra.
Qed.

(** A positive real is placed between two bounds by its square. *)
Lemma between_by_square (v lo hi : R) :
  0 < v -> 0 <= lo -> 0 <= hi -> lo ^ 2 < v ^ 2 -> v ^ 2 < hi ^ 2 -> lo < v < hi.
Proof.
  intros Hv Hlo H0 Hl Hh. split.
  - destruct (Rle_lt_dec v lo) as [Hle|Hlt]; [|exact Hlt].
    pose proof (pow_incr v lo 2 (conj (Rlt_le _ _ Hv) Hle)). lra.
  - destruct (Rle_lt_dec hi v) as [Hle|Hlt]; [|exact Hlt].
    pose proof (pow_incr hi v 2 (conj H0 Hle)). lra.
Qed.

Lemma dx_value : dx = 211.6 / 30.
Proof.
  unfold dx, L, N. rewrite x_value.
  replace (INR 30) with 30 by (simpl; lra). lra.
Qed.

Lemma travel_phase_square : travel_phase ^ 2 = k / m * (x / c) ^ 2.
Proof. unfold travel_phase. now rewrite Rpow_mult_distr, omega_square. Qed.

Lemma travel_phase_pos : 0 < travel_phase.
Proof.
  unfold travel_phase. pose proof omega_pos. pose proof x_pos. pose proof c_pos.
  apply Rmult_lt_0_compat; [assumption|]. now apply Rdiv_lt_0_compat.
Qed.

(** The phase of the travel to [p_x] lies in the first half of a half turn:
    between a multiple of [PI] and that multiple plus [PI/2]. *)
Lemma travel_phase_between :
  2187557486 * PI < travel_phase < 2187557486 * PI + PI / 2.
Proof.
  pose proof PI_bounds as [Hlo Hhi]. pose proof travel_phase_square as Hsq.
  rewrite x_value in Hsq. unfold k, m, q, alpha, c in Hsq.
  destruct (between_by_square travel_phase (2187557486 * 3.1415926536)
              (2187557486.5 * 3.14159265358) travel_phase_pos) as [H1 H2];
    lra.
Qed.

Lemma sin_travel_phase : sin travel_phase <> 0.
Proof.
  intros Hsin. apply sin_eq_0_0 in Hsin. destruct Hsin as [kz Hkz].
  pose proof travel_phase_between as [Hlo Hhi]. pose proof PI_RGT_0 as Hpi.
  rewrite Hkz in Hlo, Hhi.
  apply Rmult_lt_reg_r in Hlo; [|exact Hpi].
  assert (Hup : IZR kz * PI < 2187557487 * PI) by lra.
  apply Rmult_lt_reg_r in Hup; [|exact Hpi].
  apply lt_IZR in Hlo, Hup. lia.
Qed.

Lemma cos_travel_phase : cos travel_phase <> 0.
Proof.
  intros Hcos. apply cos_eq_0_0 in Hcos. destruct Hcos as [kz Hkz].
  pose proof travel_phase_between as [Hlo Hhi]. pose proof PI_RGT_0 as Hpi.
  rewrite Hkz in Hlo, Hhi.
  assert (Hup : IZR kz * PI < 2187557486 * PI) by lra.
  apply Rmult_lt_reg_r in Hup; [|exact Hpi].
  apply lt_IZR in Hup.
  assert (Hle : IZR kz <= 2187557485) by (apply IZR_le; lia).
  nra.
Qed.

(** C1, the claim refuted: at the location [p_x] (of index 60 in the grid
    of [Erad(2,2)]) and at step 0 the code's field is not the field of the
    specification's formula. *)
Lemma Efield_differs_from_spec :
  0 < mag p_x /\ Efield p_x 0 <> Ok (field_spec p_x (t_at 0)).
Proof.
  assert (Hp : 0 < mag p_x) by (rewrite mag_p_x; exact x_pos).
  split; [exact Hp|].
  rewrite (Efield_defined p_x 0 Hp) by (unfold Nsteps; lia).
  intros Heq. apply Ok_inj, (f_equal vy) in Heq.
  rewrite vy_Efield_at_p_x, vy_field_spec_p_x in Heq.
  unfold t_at in Heq. simpl INR in Heq.
  rewrite Rmult_0_l, Rmult_0_r, Rplus_0_l in Heq.
  unfold Rminus in Heq. rewrite Rplus_0_l, cos_neg in Heq.
  fold travel_phase in Heq.
  pose proof amp_spec_lt_code. pose proof cos_travel_phase as Hc.
  apply Hc. nra.
Qed.

(** C1, amended. For every observation location [r] with [|r| > 0] and every
    step [i], the code's field is the display factor [13^6] times
    [oofpez*q/(c^2 |r|)] times [(Avec . hat r) hat r - Avec] times the
    cosine of [omega * tau], for a source time [tau] at the distance [|r|/c]
    from [t_i]; [oofpez = 9e9] is the code's rounded [1/(4 pi e_0)]. *)
Theorem Efield_scaled_formula (r : vec) (i : nat) :
  0 < mag r -> (i < Nsteps)%nat ->
  exists tau, Rabs (tau - t_at i) = mag r / c /\ Efield r i
    = Ok (smul (13 ^ 6)
            (vmul (smul (oofpez * q / (c ^ 2 * mag r))
                     (vsub (smul (dot Avec (hat r)) (hat r)) Avec))
               (cos (omega * tau)))).
Proof.
  intros Hr Hi. exists (t_at i + mag r / c). split.
  - replace (t_at i + mag r / c - t_at i) with (mag r / c) by ring.
    apply Rabs_pos_eq. pose proof c_pos.
    apply Rlt_le, Rdiv_lt_0_compat; assumption.
  - rewrite (Efield_defined r i Hr Hi).
    unfold Efield_at, Efield_value, a_perp, vmul, smul. cbn [vx vy vz].
    f_equal. f_equal; ring.
Qed.

Lemma Efield_scaled_formula_witness :
  exists tau, Rabs (tau - t_at 1) = mag p_x / c /\ Efield p_x 1
    = Ok (smul (13 ^ 6)
            (vmul (smul (oofpez * q / (c ^ 2 * mag p_x))
                     (vsub (smul (dot Avec (hat p_x)) (hat p_x)) Avec))
               (cos (omega * tau)))).
Proof.
  apply (Efield_scaled_formula p_x 1).
  - rewrite mag_p_x. exact x_pos.
  - unfold Nsteps. lia.
Defined.

(** *** Retardation *)

Lemma mag_smul (s : R) (r : vec) : 0 <= s -> mag (smul s r) = s * mag r.
Proof.
  intros Hs. unfold mag, smul. cbn [vx vy vz].
  replace ((s * vx r) ^ 2 + (s * vy r) ^ 2 + (s * vz r) ^ 2)
    with (s ^ 2 * (vx r ^ 2 + vy r ^ 2 + vz r ^ 2)) by ring.
  rewrite sqrt_mult_alt by nra.
  f_equal. replace (s ^ 2) with (s * s) by ring. now apply sqrt_square.
Qed.

Lemma hat_smul (s : R) (r : vec) : 0 < s -> 0 < mag r -> hat (smul s r) = hat r.
Proof.
  intros Hs Hr.
  assert (Hm : mag (smul s r) = s * mag r) by (apply mag_smul; lra).
  rewrite (hat_of_nonzero r Hr).
  rewrite hat_of_nonzero by (rewrite Hm; apply Rmult_lt_0_compat; assumption).
  rewrite Hm. unfold vdiv, smul. cbn [vx vy vz]. f_equal; field; lra.
Qed.

(** The code at a farther location along one direction: the field at
    [s * r], for [s > 1], is the field at [r] with the amplitude scaled by
    [|r| / |s r|] and the source time moved forward by the extra travel time
    [(|s r| - |r|)/c]: a later source time, where retardation asks for an
    earlier one. *)
Lemma Efield_farther_is_later (r : vec) (s : R) (i : nat) :
  0 < mag r -> 1 < s -> (i < Nsteps)%nat ->
  Efield (smul s r) i
  = Ok (smul (mag r / mag (smul s r))
          (Efield_at r (t_at i + (mag (smul s r) - mag r) / c))).
Proof.
  intros Hr Hs Hi.
  assert (Hm : mag (smul s r) = s * mag r) by (apply mag_smul; lra).
  assert (Hp : 0 < mag (smul s r)) by (rewrite Hm; apply Rmult_lt_0_compat; lra).
  rewrite (Efield_defined _ i Hp Hi). f_equal.
  unfold Efield_at. rewrite !Efield_value_multiple.
  unfold a_perp. rewrite (hat_smul s r) by lra. rewrite Hm.
  replace (t_at i + (s * mag r - mag r) / c + mag r / c)
    with (t_at i + s * mag r / c) by (pose proof c_pos; field; lra).
  unfold smul. cbn [vx vy vz]. pose proof c_pos.
  f_equal; field; repeat split; try lra; apply pow_nonzero; lra.
Qed.

(** *** The observation grid *)

Lemma mag_direction (theta phi : R) : mag (direction theta phi) = 1.
Proof.
  unfold mag, direction. cbn [vx vy vz].
  pose proof (sin2_cos2 theta) as Ht. pose proof (sin2_cos2 phi) as Hp.
  unfold Rsqr in Ht, Hp.
  replace ((cos phi * cos theta) ^ 2 + sin theta ^ 2 + (sin phi * cos theta) ^ 2)
    with (cos theta * cos theta * (sin phi * sin phi + cos phi * cos phi)
          + sin theta * sin theta) by ring.
  rewrite Hp, Rmult_1_r, Rplus_comm, Ht. apply sqrt_1.
Qed.

Lemma mag_radial (s theta phi : R) :
  0 <= s -> mag (smul s (direction theta phi)) = s.
Proof. intros Hs. apply mag_scaled; [exact Hs|apply mag_direction]. Qed.

Section GridFacts.

Variables (x0 dx : R) (N : nat) (dtheta dphi : R).

Lemma radial_loop_from (n a : nat) (theta phi : R) (rs : list vec) :
  radial_loop dx n theta phi (x0 + INR a * dx) rs
  = (x0 + INR (a + n) * dx,
     rs ++ map (fun j => smul (x0 + INR j * dx) (direction theta phi)) (seq a n)).
Proof.
  revert a rs. induction n as [|n IH]; intros a rs; cbn [radial_loop].
  - now rewrite Nat.add_0_r, app_nil_r.
  - replace (x0 + INR a * dx + dx) with (x0 + INR (S a) * dx)
      by (rewrite S_INR; ring).
    rewrite IH, <- app_assoc.
    now replace (S a + n)%nat with (a + S n)%nat by lia.
Qed.

Lemma radial_loop_closed (theta phi : R) (rs : list vec) :
  radial_loop dx N theta phi x0 rs
  = (x0 + INR N * dx, rs ++ radial_run x0 dx N theta phi).
Proof.
  replace x0 with (x0 + INR 0 * dx) at 1 by (simpl; ring).
  apply radial_loop_from.
Qed.

(** The azimuth loop, entered at [phi0 + a*dphi], when [cnt] more values
    stay below [2 pi] and the next does not. *)
Lemma phi_loop_from (theta phi0 : R) (cnt a fuel : nat) (rs : list vec) :
  (cnt < fuel)%nat ->
  (forall j, (a <= j < a + cnt)%nat -> phi0 + INR j * dphi < 2 * PI) ->
  ~ phi0 + INR (a + cnt) * dphi < 2 * PI ->
  phi_loop x0 dx N dphi fuel theta (phi0 + INR a * dphi) rs
  = Some (phi0 + INR (a + cnt) * dphi,
          rs ++ flat_map (fun j => radial_run x0 dx N theta (phi0 + INR j * dphi))
                  (seq a cnt)).
Proof.
  revert a fuel rs. induction cnt as [|cnt IH]; intros a fuel rs Hfuel Hin Hout;
    (destruct fuel as [|fuel]; [lia|]); cbn [phi_loop].
  - rewrite Nat.add_0_r in *.
    destruct (Rlt_dec (phi0 + INR a * dphi) (2 * PI)); [contradiction|].
    now rewrite app_nil_r.
  - destruct (Rlt_dec (phi0 + INR a * dphi) (2 * PI)) as [_|Hn];
      [|exfalso; apply Hn, Hin; lia].
    rewrite radial_loop_closed. cbn [snd].
    replace (phi0 + INR a * dphi + dphi) with (phi0 + INR (S a) * dphi)
      by (rewrite S_INR; ring).
    rewrite IH; [|lia|intros j Hj; apply Hin; lia
                |now replace (S a + cnt)%nat with (a + S cnt)%nat by lia].
    rewrite <- app_assoc.
    now replace (S a + cnt)%nat with (a + S cnt)%nat by lia.
Qed.

(** The polar loop, entered at [theta0 + a*dtheta], when every row has
    [nP] azimuths. *)
Lemma theta_loop_from (theta0 : R) (nP cnt a fuel : nat) (rs : list vec) :
  (cnt + nP < fuel)%nat ->
  (forall j, (j < nP)%nat -> 0 + INR j * dphi < 2 * PI) ->
  ~ 0 + INR nP * dphi < 2 * PI ->
  (forall i, (a <= i < a + cnt)%nat -> theta0 + INR i * dtheta < PI / 2) ->
  ~ theta0 + INR (a + cnt) * dtheta < PI / 2 ->
  theta_loop x0 dx N dtheta dphi fuel (theta0 + INR a * dtheta) rs
  = Some (rs ++ flat_map (fun i =>
                  flat_map (fun j => radial_run x0 dx N (theta0 + INR i * dtheta)
                                       (0 + INR j * dphi)) (seq 0 nP))
                  (seq a cnt)).
Proof.
  intros Hfuel Hpin Hpout. revert a fuel rs Hfuel.
  induction cnt as [|cnt IH]; intros a fuel rs Hfuel Hin Hout;
    (destruct fuel as [|fuel]; [lia|]); cbn [theta_loop].
  - rewrite Nat.add_0_r in *.
    destruct (Rlt_dec (theta0 + INR a * dtheta) (PI / 2)); [contradiction|].
    now rewrite app_nil_r.
  - destruct (Rlt_dec (theta0 + INR a * dtheta) (PI / 2)) as [_|Hn];
      [|exfalso; apply Hn, Hin; lia].
    replace 0 with (0 + INR 0 * dphi) at 1 by (simpl; ring).
    rewrite (phi_loop_from _ 0 nP 0 fuel rs);
      [|lia|intros j Hj; apply Hpin; lia|exact Hpout].
    replace (theta0 + INR a * dtheta + dtheta) with (theta0 + INR (S a) * dtheta)
      by (rewrite S_INR; ring).
    rewrite IH; [|lia|intros j Hj; apply Hin; lia
                |now replace (S a + cnt)%nat with (a + S cnt)%nat by lia].
    now rewrite <- app_assoc.
Qed.

End GridFacts.

(** Equal steps of [span / T] stay below [span] for fewer than [T] steps and
    reach it after [T]. *)
Lemma steps_below (span T i : R) :
  0 < span -> 0 < T -> i < T -> i * (span / T) < span.
Proof.
  intros Hs HT Hi. apply Rmult_lt_reg_r with (r := T); [exact HT|].
  replace (i * (span / T) * T) with (i * span) by (field; lra).
  nra.
Qed.

Lemma steps_reach (span T : R) : 0 < T -> T * (span / T) = span.
Proof. intros HT. field. lra. Qed.

Lemma INR_to_nat (z : Z) : (0 < z)%Z -> INR (Z.to_nat z) = IZR z.
Proof. intros Hz. rewrite INR_IZR_INZ, Z2Nat.id by lia. reflexivity. Qed.

Lemma truediv_by_positive (u : R) (z : Z) :
  (0 < z)%Z -> truediv u (IZR z) = Ok (u / IZR z).
Proof.
  intros Hz. unfold truediv.
  destruct (Req_dec_T (IZR z) 0) as [H0|]; [|reflexivity].
  apply (IZR_lt 0) in Hz. lra.
Qed.

(** With positive counts the loops end, and the grid is the closed form:
    [numTheta] rows of [numPhi] radial runs. *)
Lemma observation_grid_closed (x0 dx : R) (n fuel : nat) (numTheta numPhi : Z) :
  (0 < numTheta)%Z -> (0 < numPhi)%Z ->
  (Z.to_nat numTheta + Z.to_nat numPhi < fuel)%nat ->
  observation_grid x0 dx n fuel numTheta numPhi
  = Some (Ok (grid_points x0 dx n (PI / IZR numTheta) (2 * PI / IZR numPhi)
                (Z.to_nat numTheta) (Z.to_nat numPhi))).
Proof.
  intros HT HP Hfuel. unfold observation_grid.
  rewrite (truediv_by_positive PI numTheta HT).
  rewrite (truediv_by_positive (2 * PI) numPhi HP).
  pose proof PI_RGT_0 as Hpi.
  pose proof (IZR_lt 0 numTheta HT) as HTr.
  pose proof (IZR_lt 0 numPhi HP) as HPr.
  replace (- PI / 2) with (- PI / 2 + INR 0 * (PI / IZR numTheta)) at 1
    by (simpl; ring).
  rewrite (theta_loop_from x0 dx n _ _ (- PI / 2) (Z.to_nat numPhi)
             (Z.to_nat numTheta) 0 fuel []).
  - reflexivity.
  - exact Hfuel.
  - intros j Hj. apply lt_INR in Hj. rewrite (INR_to_nat numPhi HP) in Hj.
    pose proof (pos_INR j).
    pose proof (steps_below (2 * PI) (IZR numPhi) (INR j)). lra.
  - rewrite (INR_to_nat numPhi HP), steps_reach by exact HPr. lra.
  - intros i Hi. assert (Hlt : (i < Z.to_nat numTheta)%nat) by lia.
    apply lt_INR in Hlt. rewrite (INR_to_nat numTheta HT) in Hlt.
    pose proof (steps_below PI (IZR numTheta) (INR i)). lra.
  - rewrite Nat.add_0_l, (INR_to_nat numTheta HT), steps_reach by exact HTr. lra.
Qed.

Lemma length_radial_run (x0 dx : R) (n : nat) (theta phi : R) :
  length (radial_run x0 dx n theta phi) = n.
Proof. unfold radial_run. now rewrite length_map, length_seq. Qed.

Lemma length_grid_points (x0 dx : R) (n : nat) (dtheta dphi : R) (nT nP : nat) :
  length (grid_points x0 dx n dtheta dphi nT nP) = (nT * (nP * n))%nat.
Proof.
  unfold grid_points.
  rewrite (flat_map_constant_length (c := (nP * n)%nat)), length_seq; [reflexivity|].
  intros k _.
  rewrite (flat_map_constant_length (c := n)), length_seq; [reflexivity|].
  intros j _. apply length_radial_run.
Qed.

(** Lookup in a concatenation of blocks of one length. *)
Lemma lookup_flat_map_blocks {B : Type} (f : nat -> list B) (len n a k i : nat) :
  (forall j, length (f j) = len) -> (k < n)%nat -> (i < len)%nat ->
  flat_map f (seq a n) !! (k * len + i)%nat = f (a + k)%nat !! i.
Proof.
  intros Hlen. revert a k. induction n as [|n IH]; intros a k Hk Hi; [lia|].
  cbn [seq flat_map]. destruct k as [|k].
  - rewrite lookup_app_l by (rewrite Hlen; simpl; lia).
    now rewrite Nat.add_0_r.
  - rewrite lookup_app_r by (rewrite Hlen; simpl; lia).
    rewrite Hlen.
    replace (S k * len + i - len)%nat with (k * len + i)%nat by (simpl; lia).
    rewrite IH by lia. f_equal. f_equal. lia.
Qed.

Lemma lookup_grid_points (x0 dx : R) (n : nat) (dtheta dphi : R) (nT nP k j i : nat) :
  (k < nT)%nat -> (j < nP)%nat -> (i < n)%nat ->
  grid_points x0 dx n dtheta dphi nT nP !! ((k * nP + j) * n + i)%nat
  = Some (smul (x0 + INR i * dx)
            (direction (- PI / 2 + INR k * dtheta) (0 + INR j * dphi))).
Proof.
  intros Hk Hj Hi. unfold grid_points.
  replace ((k * nP + j) * n + i)%nat with (k * (nP * n) + (j * n + i))%nat by lia.
  rewrite (lookup_flat_map_blocks _ (nP * n) nT 0 k (j * n + i)); [| |exact Hk|nia].
  - rewrite (lookup_flat_map_blocks _ n nP 0 j i);
      [|intros; apply length_radial_run|exact Hj|exact Hi].
    unfold radial_run. now rewrite lookup_map_seq by exact Hi.
  - intros k'. rewrite (flat_map_constant_length (c := n)), length_seq; [reflexivity|].
    intros j' _. apply length_radial_run.
Qed.

Lemma robs_2_2 (fuel : nat) :
  (5 <= fuel)%nat ->
  robs fuel 2 2 = Some (Ok (grid_points x dx N (PI / 2) (2 * PI / 2) 2 2)).
Proof.
  intros Hfuel. unfold robs.
  rewrite (observation_grid_closed x dx N fuel 2 2) by (simpl; lia).
  reflexivity.
Qed.

(** C3. [Erad(2,2)], whose radial count is 30, fills [robs] with exactly
    2*2*30 = 120 locations, the same list at every call (whatever fuel is
    enough), in the order of the loops: the location of index
    [(k*2 + j)*30 + n] lies at the radius [x + n*dx] along the unit direction
    [(cos phi cos theta, sin theta, sin phi cos theta)] of the row
    [theta = -pi/2 + k*pi/2] and the azimuth [phi = j*pi]. *)
Theorem Erad_2_2_grid :
  exists rs,
    (forall fuel, (5 <= fuel)%nat -> robs fuel 2 2 = Some (Ok rs)) /\
    length rs = 120%nat /\
    forall k j n, (k < 2)%nat -> (j < 2)%nat -> (n < 30)%nat ->
      let theta := - PI / 2 + INR k * (PI / 2) in
      let phi := INR j * PI in
      rs !! ((k * 2 + j) * 30 + n)%nat
      = Some (smul (x + INR n * dx) (direction theta phi)) /\
      mag (direction theta phi) = 1 /\
      mag (smul (x + INR n * dx) (direction theta phi)) = x + INR n * dx.
Proof.
  exists (grid_points x dx N (PI / 2) (2 * PI / 2) 2 2).
  split; [exact robs_2_2|]. split; [apply length_grid_points|].
  intros k j n Hk Hj Hn theta phi. split; [|split].
  - rewrite (lookup_grid_points x dx N _ _ 2 2 k j n Hk Hj Hn).
    subst theta phi. do 3 f_equal. field.
  - apply mag_direction.
  - apply mag_radial. pose proof x_pos. pose proof dx_pos. pose proof (pos_INR n).
    nra.
Qed.

Lemma Erad_2_2_grid_witness :
  exists rs,
    robs 5 2 2 = Some (Ok rs) /\ length rs = 120%nat /\
    rs !! 60%nat
    = Some (smul (x + INR 0 * dx) (direction (- PI / 2 + INR 1 * (PI / 2)) (INR 0 * PI))).
Proof.
  destruct Erad_2_2_grid as (rs & Hfuel & Hlen & Hat).
  exists rs. split; [apply Hfuel; lia|]. split; [exact Hlen|].
  apply (Hat 1%nat 0%nat 0%nat); lia.
Defined.

(** The location of index 60 is [p_x], and its successor along the same run
    is [p_x] stretched by [(x + dx)/x]. *)
Lemma grid_60_is_p_x :
  smul (x + INR 0 * dx) (direction (- PI / 2 + INR 1 * (PI / 2)) (INR 0 * PI)) = p_x.
Proof.
  simpl INR. replace (- PI / 2 + 1 * (PI / 2)) with 0 by field.
  rewrite !Rmult_0_l. unfold direction, smul, p_x. cbn [vx vy vz].
  rewrite cos_0, sin_0. f_equal; ring.
Qed.

Lemma grid_61_is_farther :
  smul (x + INR 1 * dx) (direction (- PI / 2 + INR 1 * (PI / 2)) (INR 0 * PI))
  = smul ((x + dx) / x) p_x.
Proof.
  simpl INR. replace (- PI / 2 + 1 * (PI / 2)) with 0 by field.
  rewrite !Rmult_0_l. unfold direction, smul, p_x. cbn [vx vy vz].
  rewrite cos_0, sin_0. pose proof x_pos. f_equal; field; lra.
Qed.

(** *** No location at the origin *)

Section AwayFromOrigin.

Variables (x0 dx : R) (N : nat) (dtheta dphi : R).
Hypothesis x0_nonneg : 0 <= x0.
Hypothesis dx_nonneg : 0 <= dx.

Local Abbreviation far := (fun r : vec => x0 <= mag r).

Lemma radial_run_far (theta phi : R) : Forall far (radial_run x0 dx N theta phi).
Proof.
  unfold radial_run. apply Forall_forall. intros r Hr.
  apply list_elem_of_In, in_map_iff in Hr. destruct Hr as (j & <- & _).
  cbn beta. pose proof (pos_INR j).
  rewrite mag_radial; nra.
Qed.

Lemma phi_loop_far (fuel : nat) (theta phi : R) (rs : list vec) (res : R * list vec) :
  Forall far rs -> phi_loop x0 dx N dphi fuel theta phi rs = Some res ->
  Forall far (snd res).
Proof.
  revert phi rs. induction fuel as [|fuel IH]; intros phi rs Hrs Hrun;
    cbn [phi_loop] in Hrun; [discriminate|].
  destruct (Rlt_dec phi (2 * PI)).
  - apply IH in Hrun; [exact Hrun|].
    rewrite radial_loop_closed. cbn [snd].
    apply Forall_app. split; [exact Hrs|apply radial_run_far].
  - injection Hrun as <-. exact Hrs.
Qed.

Lemma theta_loop_far (fuel : nat) (theta : R) (rs res : list vec) :
  Forall far rs -> theta_loop x0 dx N dtheta dphi fuel theta rs = Some res ->
  Forall far res.
Proof.
  revert theta rs. induction fuel as [|fuel IH]; intros theta rs Hrs Hrun;
    cbn [theta_loop] in Hrun; [discriminate|].
  destruct (Rlt_dec theta (PI / 2)).
  - destruct (phi_loop x0 dx N dphi fuel theta 0 rs) as [[phi' rs']|] eqn:Hphi;
      [|discriminate].
    apply (IH (theta + dtheta) rs'); [|exact Hrun].
    exact (phi_loop_far fuel theta 0 rs (phi', rs') Hrs Hphi).
  - injection Hrun as <-. exact Hrs.
Qed.

End AwayFromOrigin.

Lemma observation_grid_far (x0 dx : R) (n fuel : nat) (numTheta numPhi : Z)
  (rs : list vec) :
  0 <= x0 -> 0 <= dx ->
  observation_grid x0 dx n fuel numTheta numPhi = Some (Ok rs) ->
  Forall (fun r => x0 <= mag r) rs.
Proof.
  intros Hx Hdx. unfold observation_grid.
  destruct (truediv PI (IZR numTheta)) as [dtheta|]; [|discriminate].
  destruct (truediv (2 * PI) (IZR numPhi)) as [dphi|]; [|discriminate].
  destruct (theta_loop x0 dx n dtheta dphi fuel (- PI / 2) []) as [res|] eqn:Hrun;
    [|discriminate].
  intros Heq. injection Heq as <-.
  apply (theta_loop_far x0 dx n dtheta dphi Hx Hdx fuel (- PI / 2) [] res);
    [constructor|exact Hrun].
Qed.

Lemma Erad_table_defined (rs : list vec) :
  Forall (fun r => 0 < mag r) rs ->
  Erad_table rs
  = Ok (map (fun r => map (fun i => Efield_at r (t_at i)) (seq 0 Nsteps)) rs).
Proof.
  intros Hrs. unfold Erad_table. apply collect_ok.
  intros r Hr. apply Efields_defined.
  rewrite Forall_forall in Hrs. now apply Hrs.
Qed.

(** C9. Every location that the loops of [Erad] append lies at least the
    radial start [x = A*5*10^11 > 0] away from the origin, so for every grid
    the code produces the quotient by [mag(r)] is defined and the whole table
    of fields is computed without a division by zero. *)
Theorem robs_away_from_origin (fuel : nat) (numTheta numPhi : Z) (rs : list vec) :
  robs fuel numTheta numPhi = Some (Ok rs) ->
  0 < x /\ 0 < dx /\ Forall (fun r => x <= mag r) rs /\
  exists table, Erad_table rs = Ok table /\ length table = length rs.
Proof.
  intros Hrs. pose proof x_pos as Hx. pose proof dx_pos as Hdx.
  assert (Hfar : Forall (fun r => x <= mag r) rs)
    by (apply (observation_grid_far x dx N fuel numTheta numPhi rs); [lra|lra|exact Hrs]).
  split; [exact Hx|]. split; [exact Hdx|]. split; [exact Hfar|].
  eexists. split.
  - apply Erad_table_defined. eapply Forall_impl; [exact Hfar|].
    intros r Hr. simpl in Hr. lra.
  - now rewrite length_map.
Qed.

Lemma robs_away_from_origin_witness :
  0 < x /\ 0 < dx /\
  Forall (fun r => x <= mag r) (grid_points x dx N (PI / 2) (2 * PI / 2) 2 2) /\
  exists table,
    Erad_table (grid_points x dx N (PI / 2) (2 * PI / 2) 2 2) = Ok table /\
    length table = length (grid_points x dx N (PI / 2) (2 * PI / 2) 2 2).
Proof.
  apply (robs_away_from_origin 5 2 2). apply robs_2_2. lia.
Defined.

(** With positive counts the grid has [numTheta * numPhi * 30] locations. *)
Lemma robs_count (fuel : nat) (numTheta numPhi : Z) :
  (0 < numTheta)%Z -> (0 < numPhi)%Z ->
  (Z.to_nat numTheta + Z.to_nat numPhi < fuel)%nat ->
  exists rs, robs fuel numTheta numPhi = Some (Ok rs) /\
    length rs = (Z.to_nat numTheta * (Z.to_nat numPhi * 30))%nat.
Proof.
  intros HT HP Hfuel. eexists. split.
  - apply (observation_grid_closed x dx N fuel numTheta numPhi HT HP Hfuel).
  - apply length_grid_points.
Qed.

(** A zero count makes the angular step raise before the loops. *)
Lemma robs_zero_count (fuel : nat) (numPhi : Z) :
  robs fuel 0 numPhi = Some (Raise ZeroDivisionError).
Proof.
  unfold robs, observation_grid, truediv.
  destruct (Req_dec_T 0 0); [reflexivity|contradiction].
Qed.

(** Once the loops have ended, [Erad] computes the whole table. *)
Lemma Erad_defined (fuel : nat) (numTheta numPhi : Z) (rs : list vec) :
  robs fuel numTheta numPhi = Some (Ok rs) ->
  Erad fuel numTheta numPhi
  = Some (Ok (rs, map (fun r => map (fun i => Efield_at r (t_at i)) (seq 0 Nsteps)) rs)).
Proof.
  intros Hrs. unfold Erad. rewrite Hrs.
  rewrite Erad_table_defined; [reflexivity|].
  pose proof x_pos as Hx. pose proof dx_pos as Hdx.
  eapply Forall_impl;
    [apply (observation_grid_far x dx N fuel numTheta numPhi rs); [lra|lra|exact Hrs]|].
  intros r Hr. simpl in Hr. lra.
Qed.

(** The locations of index 60 and 61 of [Erad(2,2)]. *)
Lemma neighbours_in_grid (fuel : nat) :
  (5 <= fuel)%nat ->
  exists rs, robs fuel 2 2 = Some (Ok rs) /\
    rs !! 60%nat = Some p_x /\ rs !! 61%nat = Some p_x_next.
Proof.
  intros Hfuel. eexists. split; [apply (robs_2_2 fuel Hfuel)|].
  unfold p_x_next. rewrite <- grid_60_is_p_x at 1. rewrite <- grid_61_is_farther.
  split.
  - rewrite (lookup_grid_points x dx N _ _ 2 2 1 0 0) by (unfold N; lia).
    do 3 f_equal. field.
  - rewrite (lookup_grid_points x dx N _ _ 2 2 1 0 1) by (unfold N; lia).
    do 3 f_equal. field.
Qed.

(** *** A location at the origin *)





(** *** The sign of the delay, at two neighbours of one radial run *)

Lemma cos_shift_agree (u v : R) :
  sin v <> 0 -> cos (u + v) = cos (u - v) -> sin u = 0.
Proof.
  intros Hv Heq. rewrite cos_plus, cos_minus in Heq.
  assert (Hz : sin u * sin v = 0) by lra.
  apply Rmult_integral in Hz. tauto.
Qed.

Lemma run_phase_square : run_phase ^ 2 = k / m * (dx / c) ^ 2.
Proof. unfold run_phase. now rewrite Rpow_mult_distr, omega_square. Qed.

Lemma run_phase_pos : 0 < run_phase.
Proof.
  unfold run_phase. pose proof omega_pos. pose proof dx_pos. pose proof c_pos.
  apply Rmult_lt_0_compat; [assumption|]. now apply Rdiv_lt_0_compat.
Qed.

(** The phase between neighbours lies strictly between two successive
    multiples of [PI]. *)
Lemma run_phase_between : 145837165 * PI < run_phase < 145837166 * PI.
Proof.
  pose proof PI_bounds as [Hlo Hhi]. pose proof run_phase_square as Hsq.
  rewrite dx_value in Hsq. unfold k, m, q, alpha, c in Hsq.
  destruct (between_by_square run_phase (145837165 * 3.1415926536)
              (145837166 * 3.14159265358) run_phase_pos) as [H1 H2];
    lra.
Qed.

Lemma sin_run_phase : sin run_phase <> 0.
Proof.
  intros Hsin. apply sin_eq_0_0 in Hsin. destruct Hsin as [kz Hkz].
  pose proof run_phase_between as [Hlo Hhi]. pose proof PI_RGT_0 as Hpi.
  rewrite Hkz in Hlo, Hhi.
  apply Rmult_lt_reg_r in Hlo; [|exact Hpi].
  apply Rmult_lt_reg_r in Hhi; [|exact Hpi].
  apply lt_IZR in Hlo, Hhi. lia.
Qed.

Lemma amp_code_pos : 0 < amp_code.
Proof. pose proof amp_spec_pos. pose proof amp_spec_lt_code. lra. Qed.

Lemma stretch_gt_1 : 1 < (x + dx) / x.
Proof.
  pose proof x_pos. pose proof dx_pos.
  apply Rmult_lt_reg_r with (r := x); [assumption|].
  replace ((x + dx) / x * x) with (x + dx) by (field; lra). lra.
Qed.

Lemma mag_p_x_next : mag p_x_next = x + dx.
Proof.
  unfold p_x_next. pose proof stretch_gt_1. pose proof x_pos.
  rewrite mag_smul, mag_p_x by lra. field. lra.
Qed.

(** C2, on the code. At the locations of index 60 and 61 of [Erad(2,2)],
    which lie along one direction at the radii [x < x + dx], the field of the
    farther one at step 0 is the field of the nearer one, scaled by the
    ratio of the radii, at the source time LATER by [dx/c]; and it is not
    the scaled field of the nearer one at the source time earlier by
    [dx/c], which is what retardation requires. *)
Theorem retardation_reversed :
  mag p_x < mag p_x_next /\
  Efield p_x_next 0
  = Ok (smul (mag p_x / mag p_x_next)
          (Efield_at p_x (t_at 0 + (mag p_x_next - mag p_x) / c))) /\
  Efield p_x_next 0
  <> Ok (smul (mag p_x / mag p_x_next)
           (Efield_at p_x (t_at 0 - (mag p_x_next - mag p_x) / c))).
Proof.
  assert (Hp : 0 < mag p_x) by (rewrite mag_p_x; exact x_pos).
  pose proof x_pos as Hx. pose proof dx_pos as Hdx. pose proof amp_code_pos as Ha.
  assert (Hlater : Efield p_x_next 0
            = Ok (smul (mag p_x / mag p_x_next)
                    (Efield_at p_x (t_at 0 + (mag p_x_next - mag p_x) / c)))).
  { unfold p_x_next.
    apply Efield_farther_is_later; [exact Hp|exact stretch_gt_1|unfold Nsteps; lia]. }
  split; [rewrite mag_p_x_next, mag_p_x; lra|].
  split; [exact Hlater|].
  rewrite Hlater. intros Heq.
  apply Ok_inj, (f_equal vy) in Heq. unfold smul in Heq. cbn [vy] in Heq.
  rewrite !vy_Efield_at_p_x, mag_p_x_next, mag_p_x in Heq.
  replace (x + dx - x) with dx in Heq by ring.
  assert (Hr : 0 < x / (x + dx) * amp_code).
  { apply Rmult_lt_0_compat; [apply Rdiv_lt_0_compat; lra|exact Ha]. }
  rewrite <- !Rmult_assoc in Heq.
  apply Rmult_eq_reg_l in Heq; [|lra].
  unfold t_at in Heq. simpl INR in Heq. rewrite Rmult_0_l in Heq.
  apply sin_travel_phase.
  apply (cos_shift_agree _ run_phase sin_run_phase).
  unfold run_phase, travel_phase.
  replace (omega * (x / c) + omega * (dx / c))
    with (omega * (0 + dx / c) + omega * (x / c)) by ring.
  replace (omega * (x / c) - omega * (dx / c))
    with (omega * (0 - dx / c) + omega * (x / c)) by ring.
  exact Heq.
Qed.

End ElectricRadProps.

(** ** The Runge-Kutta step *)

Module OdeProps.

Import Ode.

Lemma length_add (u v : list R) :
  length v = length u -> length (Vector.add u v) = length u.
Proof. intros H. unfold Vector.add. rewrite length_zip_with. lia. Qed.

Lemma length_scale (s : R) (v : list R) : length (Vector.scale s v) = length v.
Proof. unfold Vector.scale. apply length_map. Qed.

Lemma length_add_n (n : nat) (u v : list R) :
  length u = n -> length v = n -> length (Vector.add u v) = n.
Proof. intros Hu Hv. rewrite length_add; congruence. Qed.

Lemma length_scale_n (n : nat) (s : R) (v : list R) :
  length v = n -> length (Vector.scale s v) = n.
Proof. intros Hv. now rewrite length_scale. Qed.

Lemma lookup_add (u v : list R) (j : nat) (a b : R) :
  u !! j = Some a -> v !! j = Some b -> Vector.add u v !! j = Some (a + b).
Proof.
  intros Hu Hv. unfold Vector.add. rewrite lookup_zip_with, Hu, Hv. reflexivity.
Qed.

Lemma lookup_scale (s : R) (v : list R) (j : nat) (a : R) :
  v !! j = Some a -> Vector.scale s v !! j = Some (s * a).
Proof.
  intros Hv. unfold Vector.scale.
  change (map (Rmult s) v) with (Rmult s <$> v).
  rewrite list_lookup_fmap, Hv. reflexivity.
Qed.

Lemma stage_ok (derivFn : list R -> R -> result (list R)) (state k : list R) (t : R) :
  derivFn state t = Ok k -> length k = length state ->
  stage derivFn state t = Ok k.
Proof.
  intros Hk Hlen. unfold stage. rewrite Hk. simpl.
  destruct (decide (length k = length state)); [reflexivity|contradiction].
Qed.

(** The step uses the derivative function through its values only. *)
Lemma RK4_ext (f g : list R -> R -> result (list R)) (state : list R) (t h : R) :
  (forall s u, f s u = g s u) -> RK4 f state t h = RK4 g state t h.
Proof.
  intros Hfg.
  assert (Hs : forall s u, stage f s u = stage g s u)
    by (intros s u; unfold stage; now rewrite Hfg).
  unfold RK4. rewrite Hs.
  destruct (stage g state t) as [k1|]; simpl; [|reflexivity].
  rewrite Hs. destruct (stage g _ (t + h / 2)) as [k2|]; simpl; [|reflexivity].
  rewrite Hs. destruct (stage g _ (t + h / 2)) as [k3|]; simpl; [|reflexivity].
  rewrite Hs. reflexivity.
Qed.

(** C5. For every derivative function, state, time and step [h > 0], when
    the four stages [k1 = derivFn(state, t)],
    [k2 = derivFn(state + (h/2) k1, t + h/2)],
    [k3 = derivFn(state + (h/2) k2, t + h/2)] and
    [k4 = derivFn(state + h k3, t + h)] are vectors of the length of the
    state, the step returns [state + (h/6)(k1 + 2 k2 + 2 k3 + k4)]: a vector
    of the same length whose entry [j] is
    [s_j + (h/6)(k1_j + 2 k2_j + 2 k3_j + k4_j)]. *)
Theorem RK4_step_formula (derivFn : list R -> R -> result (list R))
  (state k1 k2 k3 k4 : list R) (t h : R) :
  0 < h ->
  derivFn state t = Ok k1 -> length k1 = length state ->
  derivFn (Vector.add state (Vector.scale (h / 2) k1)) (t + h / 2) = Ok k2 ->
  length k2 = length state ->
  derivFn (Vector.add state (Vector.scale (h / 2) k2)) (t + h / 2) = Ok k3 ->
  length k3 = length state ->
  derivFn (Vector.add state (Vector.scale h k3)) (t + h) = Ok k4 ->
  length k4 = length state ->
  exists next,
    RK4 derivFn state t h = Ok next /\
    next = Vector.add state
             (Vector.scale (h / 6)
                (Vector.add (Vector.add (Vector.add k1 (Vector.scale 2 k2))
                               (Vector.scale 2 k3)) k4)) /\
    length next = length state /\
    forall j s a b c d,
      state !! j = Some s -> k1 !! j = Some a -> k2 !! j = Some b ->
      k3 !! j = Some c -> k4 !! j = Some d ->
      next !! j = Some (s + h / 6 * (a + 2 * b + 2 * c + d)).
Proof.
  intros _ H1 L1 H2 L2 H3 L3 H4 L4. eexists. split; [|split; [reflexivity|split]].
  - unfold RK4.
    rewrite (stage_ok derivFn state k1 t H1 L1). simpl.
    rewrite (stage_ok derivFn _ k2 _ H2)
      by (rewrite length_add; [exact L2|now rewrite length_scale]). simpl.
    rewrite (stage_ok derivFn _ k3 _ H3)
      by (rewrite length_add; [exact L3|now rewrite length_scale]). simpl.
    rewrite (stage_ok derivFn _ k4 _ H4)
      by (rewrite length_add; [exact L4|now rewrite length_scale]). simpl.
    reflexivity.
  - repeat (apply length_add_n || apply length_scale_n); congruence.
  - intros j s a b c d Hs Ha Hb Hc Hd.
    apply lookup_add; [exact Hs|]. apply lookup_scale.
    repeat apply lookup_add; try apply lookup_scale; assumption.
Qed.

Lemma RK4_step_formula_witness :
  exists next, RK4 decay [1] 0 1 = Ok next /\ length next = 1%nat.
Proof.
  pose (k1 := Vector.scale (-1) [1]).
  pose (k2 := Vector.scale (-1) (Vector.add [1] (Vector.scale (1 / 2) k1))).
  pose (k3 := Vector.scale (-1) (Vector.add [1] (Vector.scale (1 / 2) k2))).
  pose (k4 := Vector.scale (-1) (Vector.add [1] (Vector.scale 1 k3))).
  destruct (RK4_step_formula decay [1] k1 k2 k3 k4 0 1)
    as (next & Hnext & _ & Hlen & _); [lra|reflexivity ..|].
  exists next. split; [exact Hnext|exact Hlen].
Defined.

(** A derivative function that is defined on the vectors of length [n], with
    values of length [n], makes the step defined there too. *)
Lemma RK4_total (derivFn : list R -> R -> result (list R)) (n : nat) :
  (forall s u, length s = n -> exists k, derivFn s u = Ok k /\ length k = n) ->
  forall state t h, length state = n ->
    exists next, RK4 derivFn state t h = Ok next /\ length next = n.
Proof.
  intros Hf state t h Hn.
  destruct (Hf state t Hn) as (k1 & H1 & L1).
  assert (Hn2 : length (Vector.add state (Vector.scale (h / 2) k1)) = n)
    by (rewrite length_add; [exact Hn|rewrite length_scale; congruence]).
  destruct (Hf _ (t + h / 2) Hn2) as (k2 & H2 & L2).
  assert (Hn3 : length (Vector.add state (Vector.scale (h / 2) k2)) = n)
    by (rewrite length_add; [exact Hn|rewrite length_scale; congruence]).
  destruct (Hf _ (t + h / 2) Hn3) as (k3 & H3 & L3).
  assert (Hn4 : length (Vector.add state (Vector.scale h k3)) = n)
    by (rewrite length_add; [exact Hn|rewrite length_scale; congruence]).
  destruct (Hf _ (t + h) Hn4) as (k4 & H4 & L4).
  eexists. split.
  - unfold RK4.
    rewrite (stage_ok derivFn state k1 t H1) by congruence. simpl.
    rewrite (stage_ok derivFn _ k2 _ H2) by congruence. simpl.
    rewrite (stage_ok derivFn _ k3 _ H3) by congruence. simpl.
    rewrite (stage_ok derivFn _ k4 _ H4) by congruence. simpl.
    reflexivity.
  - repeat (apply length_add_n || apply length_scale_n); congruence.
Qed.

End OdeProps.

(** ** The double pendulum *)

Module DoublePendulumProps.

Import DoublePendulum.

Lemma global_cell_m1 (L1 L2 m1 m2 : R) : global (cell L1 L2 m1 m2) "m1" = Ok m1.
Proof. unfold global, cell. now simplify_map_eq. Qed.

Lemma global_cell_m2 (L1 L2 m1 m2 : R) : global (cell L1 L2 m1 m2) "m2" = Ok m2.
Proof. unfold global, cell. now simplify_map_eq. Qed.

Lemma global_cell_L1 (L1 L2 m1 m2 : R) : global (cell L1 L2 m1 m2) "L1" = Ok L1.
Proof. unfold global, cell. now simplify_map_eq. Qed.

Lemma global_cell_L2 (L1 L2 m1 m2 : R) : global (cell L1 L2 m1 m2) "L2" = Ok L2.
Proof. unfold global, cell. now simplify_map_eq. Qed.

(** With the four variables set, the derivative is defined on the vectors of
    length 4 and has length 4. *)
Lemma dpendulum_total (L1 L2 m1 m2 : R) (dep : list R) (t : R) :
  length dep = 4%nat ->
  exists deriv, dpendulum (cell L1 L2 m1 m2) dep t = Ok deriv /\ length deriv = 4%nat.
Proof.
  intros Hlen.
  destruct dep as [|theta1 [|omega1 [|theta2 [|omega2 [|? ?]]]]]; try discriminate.
  unfold dpendulum. cbn [getitem lookup list_lookup mbind result_bind].
  rewrite global_cell_m1. cbn [mbind result_bind].
  rewrite global_cell_m2. cbn [mbind result_bind].
  rewrite global_cell_L2. cbn [mbind result_bind].
  rewrite global_cell_L1. cbn [mbind result_bind].
  eexists. split; reflexivity.
Qed.

(** The acceleration of the first pendulum at the release position
    [theta1 = pi/2], [theta2 = 0], at rest: [-g / L1]. *)
Lemma dpendulum_at_release (L1 L2 m1 m2 : R) :
  0 < L1 -> 0 < m1 -> 0 < m2 ->
  exists b, dpendulum (cell L1 L2 m1 m2) [PI / 2; 0; 0; 0] 0 = Ok [0; - g / L1; 0; b].
Proof.
  intros HL Hm1 Hm2. unfold dpendulum.
  cbn [getitem lookup list_lookup mbind result_bind].
  rewrite global_cell_m1. cbn [mbind result_bind].
  rewrite global_cell_m2. cbn [mbind result_bind].
  rewrite global_cell_L2. cbn [mbind result_bind].
  rewrite global_cell_L1. cbn [mbind result_bind].
  eexists. do 2 f_equal. f_equal.
  replace (PI / 2 - 2 * 0) with (PI / 2) by ring.
  replace (PI / 2 - 0) with (PI / 2) by ring.
  replace (2 * (PI / 2) - 2 * 0) with PI by field.
  rewrite sin_PI2, cos_PI2, cos_PI. field. lra.
Qed.

(** C6, the claim refuted: with the module-level variables as the cell before
    the first run sets them and as the cell before the third run sets them,
    [dpendulum] gives different derivatives for one state and one time. *)
Lemma dpendulum_reads_globals :
  dpendulum cell9 [PI / 2; 0; 0; 0] 0 <> dpendulum cell15 [PI / 2; 0; 0; 0] 0.
Proof.
  unfold cell9, cell15.
  destruct (dpendulum_at_release 4 4 8 2) as [b1 H1]; [lra..|].
  destruct (dpendulum_at_release 8 2 4 4) as [b2 H2]; [lra..|].
  rewrite H1, H2. intros Heq. apply Ok_inj in Heq.
  assert (Hacc : - g / 4 = - g / 8) by congruence.
  unfold g in Hacc. lra.
Qed.

Lemma dpendulum_same_globals (G1 G2 : gmap string R) (dep : list R) (t : R) :
  G1 !! "m1" = G2 !! "m1" -> G1 !! "m2" = G2 !! "m2" ->
  G1 !! "L1" = G2 !! "L1" -> G1 !! "L2" = G2 !! "L2" ->
  dpendulum G1 dep t = dpendulum G2 dep t.
Proof.
  intros Hm1 Hm2 HL1 HL2. unfold dpendulum, global.
  now rewrite Hm1, Hm2, HL1, HL2.
Qed.

(** C6, amended. The step is a function of [(derivFn, state, t, h)] alone,
    but the derivative function [dpendulum] is a function of its arguments
    [(dep, t)] and of the four module-level variables [m1], [m2], [L1], [L2]
    that it reads when called: in two environments that agree on these four
    names, whatever else they hold, identical arguments give identical
    derivatives and identical steps. *)
Theorem dpendulum_pure_up_to_four_globals (G1 G2 : gmap string R) :
  G1 !! "m1" = G2 !! "m1" -> G1 !! "m2" = G2 !! "m2" ->
  G1 !! "L1" = G2 !! "L1" -> G1 !! "L2" = G2 !! "L2" ->
  forall (dep : list R) (t h : R),
    dpendulum G1 dep t = dpendulum G2 dep t /\
    Ode.RK4 (dpendulum G1) dep t h = Ode.RK4 (dpendulum G2) dep t h.
Proof.
  intros Hm1 Hm2 HL1 HL2 dep t h. split.
  - now apply dpendulum_same_globals.
  - apply OdeProps.RK4_ext. intros s u. now apply dpendulum_same_globals.
Qed.

Lemma dpendulum_pure_up_to_four_globals_witness :
  dpendulum cell9 [PI / 2; 0; 0; 0] 0
  = dpendulum (<["th1" := 0]> cell9) [PI / 2; 0; 0; 0] 0 /\
  Ode.RK4 (dpendulum cell9) [PI / 2; 0; 0; 0] 0 1e-4
  = Ode.RK4 (dpendulum (<["th1" := 0]> cell9)) [PI / 2; 0; 0; 0] 0 1e-4.
Proof.
  apply (dpendulum_pure_up_to_four_globals cell9 (<["th1" := 0]> cell9));
    symmetry; apply lookup_insert_ne; discriminate.
Defined.

(** [pcalc] never reads its four arguments. *)
Lemma pcalc_ignores_arguments
  (RK4 : (list R -> R -> result (list R)) -> list R -> R -> R -> result (list R))
  (G : gmap string R) (L1 m1 L2 m2 L1' m1' L2' m2' : R) :
  pcalc RK4 G L1 m1 L2 m2 = pcalc RK4 G L1' m1' L2' m2'.
Proof. reflexivity. Qed.

(** *** The time loop *)

Lemma setitem_ok (l : list R) (n : nat) (v : R) :
  (n < length l)%nat -> setitem l n v = Ok (<[n := v]> l).
Proof.
  intros Hn. unfold setitem.
  destruct (decide (n < length l)%nat); [reflexivity|contradiction].
Qed.

Lemma length_zeros (n : nat) : length (zeros n) = n.
Proof. apply length_replicate. Qed.

Section TimeLoop.

Variable RK4 : (list R -> R -> result (list R)) -> list R -> R -> R -> result (list R).
Variable G : gmap string R.
Variables (theta1_0 theta2_0 omega1_0 omega2_0 t0 h : R) (Nsteps : nat).

(** The stepper is defined on the states of the pendulum. *)
Hypothesis RK4_defined : forall y u,
  length y = 4%nat -> exists y', RK4 (dpendulum G) y u h = Ok y' /\ length y' = 4%nat.

Local Abbreviation loop_inv :=
  (loop_inv theta1_0 theta2_0 omega1_0 omega2_0 t0 h Nsteps).

Lemma time_step_inv (n : nat) (st : locals) :
  (1 <= n < 1 + (Nsteps - 1))%nat -> loop_inv n st ->
  exists st', time_step RK4 G h st n = Ok st' /\ loop_inv (S n) st'.
Proof.
  intros Hn (Hdata & Ht & (Lt & L1 & L2 & L3 & L4) & (Zt & Z1 & Z2 & Z3 & Z4) & Hpast).
  destruct (RK4_defined (data st) (t st) Hdata) as (data' & Hstep & Hlen).
  destruct data' as [|d0 [|d1 [|d2 [|d3 [|? ?]]]]]; try discriminate.
  unfold time_step. rewrite Hstep. cbn [mbind result_bind].
  rewrite (setitem_ok (tarr st)) by lia.
  cbn [getitem lookup list_lookup mbind result_bind].
  rewrite (setitem_ok (theta1arr st)) by lia. cbn [mbind result_bind].
  rewrite (setitem_ok (omega1arr st)) by lia. cbn [mbind result_bind].
  rewrite (setitem_ok (theta2arr st)) by lia. cbn [mbind result_bind].
  rewrite (setitem_ok (omega2arr st)) by lia. cbn [mbind result_bind].
  eexists. split; [reflexivity|].
  unfold DoublePendulum.loop_inv. cbn [data t tarr theta1arr theta2arr omega1arr omega2arr].
  rewrite !length_insert.
  rewrite !list_lookup_insert_ne by lia.
  split; [reflexivity|]. split; [rewrite Ht, S_INR; ring|].
  split; [tauto|]. split; [tauto|].
  intros j Hj. destruct (decide (j = n)) as [->|Hne].
  - rewrite list_lookup_insert_eq by lia. f_equal. rewrite Ht. ring.
  - rewrite list_lookup_insert_ne by lia. apply Hpast. lia.
Qed.

Lemma pcalc_from_inv :
  (0 < Nsteps)%nat ->
  exists st,
    pcalc_from RK4 G theta1_0 theta2_0 omega1_0 omega2_0 t0 h Nsteps
    = Ok (theta1arr st, omega1arr st, theta2arr st, omega2arr st, tarr st) /\
    loop_inv Nsteps st.
Proof.
  intros Hpos. unfold pcalc_from.
  rewrite !setitem_ok by (rewrite length_zeros; exact Hpos).
  cbn [mbind result_bind].
  destruct (for_each_range loop_inv (time_step RK4 G h) (Nsteps - 1) 1
              (mklocals [theta1_0; omega1_0; theta2_0; omega2_0] t0
                 (<[0%nat := t0]> (zeros Nsteps))
                 (<[0%nat := theta1_0]> (zeros Nsteps))
                 (<[0%nat := theta2_0]> (zeros Nsteps))
                 (<[0%nat := omega1_0]> (zeros Nsteps))
                 (<[0%nat := omega2_0]> (zeros Nsteps))))
    as (st & Hrun & Hinv).
  - unfold loop_inv. cbn [data t tarr theta1arr theta2arr omega1arr omega2arr].
    rewrite !length_insert, !length_zeros.
    rewrite !list_lookup_insert_eq by (rewrite length_zeros; exact Hpos).
    split; [reflexivity|]. split; [simpl; ring|]. split; [tauto|]. split; [tauto|].
    intros j Hj. replace j with 0%nat by lia.
    rewrite list_lookup_insert_eq by (rewrite length_zeros; exact Hpos).
    f_equal. simpl. ring.
  - intros n st Hn Hinv. now apply time_step_inv.
  - rewrite Hrun. cbn [mbind result_bind].
    exists st. split; [reflexivity|].
    now replace (1 + (Nsteps - 1))%nat with Nsteps in Hinv by lia.
Qed.

End TimeLoop.

(** C4. For every positive number of steps, with a stepper that is defined
    on the states of the pendulum, the time loop of [pcalc] returns arrays of
    exactly [Nsteps] entries; the entries of index 0 are the initial time and
    the initial state, and the time of index [n] is [t0 + n*h] for every
    [n < Nsteps].  With [Nsteps = 1] that is one entry: the initial state at
    [t0]. *)
Theorem pcalc_from_trajectory
  (RK4 : (list R -> R -> result (list R)) -> list R -> R -> R -> result (list R))
  (G : gmap string R) (theta1_0 theta2_0 omega1_0 omega2_0 t0 h : R)
  (Nsteps : nat) :
  (0 < Nsteps)%nat ->
  (forall y u, length y = 4%nat ->
     exists y', RK4 (dpendulum G) y u h = Ok y' /\ length y' = 4%nat) ->
  exists theta1arr omega1arr theta2arr omega2arr tarr : list R,
    pcalc_from RK4 G theta1_0 theta2_0 omega1_0 omega2_0 t0 h Nsteps
    = Ok (theta1arr, omega1arr, theta2arr, omega2arr, tarr) /\
    (length tarr = Nsteps /\ length theta1arr = Nsteps /\ length omega1arr = Nsteps /\
     length theta2arr = Nsteps /\ length omega2arr = Nsteps) /\
    (tarr !! 0%nat = Some t0 /\ theta1arr !! 0%nat = Some theta1_0 /\
     omega1arr !! 0%nat = Some omega1_0 /\ theta2arr !! 0%nat = Some theta2_0 /\
     omega2arr !! 0%nat = Some omega2_0) /\
    forall n, (n < Nsteps)%nat -> tarr !! n = Some (t0 + INR n * h).
Proof.
  intros Hpos Hstep.
  destruct (pcalc_from_inv RK4 G theta1_0 theta2_0 omega1_0 omega2_0 t0 h Nsteps
              Hstep Hpos)
    as (st & Hrun & _ & _ & Hlen & Hzero & Htimes).
  exists (theta1arr st), (omega1arr st), (theta2arr st), (omega2arr st), (tarr st).
  split; [exact Hrun|]. split; [tauto|]. split; [tauto|]. exact Htimes.
Qed.

Lemma RK4_dpendulum_defined (L1 L2 m1 m2 h : R) (y : list R) (u : R) :
  length y = 4%nat ->
  exists y', Ode.RK4 (dpendulum (cell L1 L2 m1 m2)) y u h = Ok y' /\ length y' = 4%nat.
Proof.
  intros Hy. apply (OdeProps.RK4_total _ 4%nat); [|exact Hy].
  intros s v Hs. now apply dpendulum_total.
Qed.

Lemma pcalc_from_trajectory_witness :
  exists theta1arr omega1arr theta2arr omega2arr tarr : list R,
    pcalc_from Ode.RK4 cell9 (PI / 2) 0 0 0 0 1e-4 1
    = Ok (theta1arr, omega1arr, theta2arr, omega2arr, tarr) /\
    (length tarr = 1%nat /\ length theta1arr = 1%nat /\ length omega1arr = 1%nat /\
     length theta2arr = 1%nat /\ length omega2arr = 1%nat) /\
    (tarr !! 0%nat = Some 0 /\ theta1arr !! 0%nat = Some (PI / 2) /\
     omega1arr !! 0%nat = Some 0 /\ theta2arr !! 0%nat = Some 0 /\
     omega2arr !! 0%nat = Some 0) /\
    forall n, (n < 1)%nat -> tarr !! n = Some (0 + INR n * 1e-4).
Proof.
  apply (pcalc_from_trajectory Ode.RK4 cell9 (PI / 2) 0 0 0 0 1e-4 1).
  - lia.
  - intros y u Hy. unfold cell9. now apply RK4_dpendulum_defined.
Defined.

(** The number of steps that [pcalc] itself takes: [int(10/h)] with
    [h = 1e-4]. *)
Lemma pcalc_Nsteps : Z.to_nat (Int_part (10 / 1e-4)) = Z.to_nat 100000.
Proof.
  f_equal. symmetry. apply Int_part_spec.
  replace (10 / 1e-4) with 100000 by lra. lra.
Qed.

(** [pcalc] in the notebook's four settings returns arrays of 100000
    entries, with the release state at time 0 first and the times [n*h]. *)
Lemma pcalc_trajectory (L1v L2v m1v m2v a1 a2 a3 a4 : R) :
  exists theta1arr omega1arr theta2arr omega2arr tarr : list R,
    pcalc Ode.RK4 (cell L1v L2v m1v m2v) a1 a2 a3 a4
    = Ok (theta1arr, omega1arr, theta2arr, omega2arr, tarr) /\
    length tarr = Z.to_nat 100000 /\
    tarr !! 0%nat = Some 0 /\ theta1arr !! 0%nat = Some (PI / 2) /\
    forall n, (n < Z.to_nat 100000)%nat -> tarr !! n = Some (0 + INR n * 1e-4).
Proof.
  unfold pcalc. rewrite pcalc_Nsteps.
  assert (Hpos : (0 < Z.to_nat 100000)%nat) by lia.
  generalize dependent (Z.to_nat 100000). intros n Hpos.
  destruct (pcalc_from_inv Ode.RK4 (cell L1v L2v m1v m2v) (PI / 2) 0 0 0 0 1e-4 n)
    as (st & Hrun & _ & _ & Hlen & Hzero & Htimes).
  - intros y u Hy. now apply RK4_dpendulum_defined.
  - exact Hpos.
  - exists (theta1arr st), (omega1arr st), (theta2arr st), (omega2arr st), (tarr st).
    split; [exact Hrun|]. split; [apply Hlen|].
    split; [apply Hzero|]. split; [apply Hzero|exact Htimes].
Qed.

End DoublePendulumProps.

(** ** More on the radiating charge: every input of [Erad] *)

Module ElectricRadInputs.

Import ElectricRad ElectricRadProps.





Lemma Erad_of_robs_ok (fuel : nat) (numTheta numPhi : Z)
  (rs : list vec) (table : list (list vec)) :
  Erad fuel numTheta numPhi = Some (Ok (rs, table)) ->
  robs fuel numTheta numPhi = Some (Ok rs) /\
  table = map (fun r => map (fun i => Efield_at r (t_at i)) (seq 0 Nsteps)) rs.
Proof.
  intros HE.
  destruct (robs fuel numTheta numPhi) as [[rs'|e]|] eqn:Hrs.
  - rewrite (Erad_defined fuel numTheta numPhi rs' Hrs) in HE.
    injection HE as <- <-. split; reflexivity.
  - unfold Erad in HE. rewrite Hrs in HE. discriminate.
  - unfold Erad in HE. rewrite Hrs in HE. discriminate.
Qed.







(** X4. Whenever [Erad] gets through its loops, the table of fields has one
    row for each observation location, every row has [Nsteps] entries, and
    the entry [i] of the row [n] is the field at the location [n] for the
    time [t[i]]. *)
Theorem Erad_table_shape (fuel : nat) (numTheta numPhi : Z)
  (rs : list vec) (table : list (list vec)) :
  Erad fuel numTheta numPhi = Some (Ok (rs, table)) ->
  length table = length rs /\
  (forall row, row ∈ table -> length row = Nsteps) /\
  forall n i r, rs !! n = Some r -> (i < Nsteps)%nat ->
    exists row, table !! n = Some row /\ row !! i = Some (Efield_at r (t_at i)) /\
                Efield r i = Ok (Efield_at r (t_at i)).
Proof.
  intros HE. apply Erad_of_robs_ok in HE. destruct HE as [Hrs ->].
  split; [now rewrite length_map|]. split.
  - intros row Hrow. apply list_elem_of_In, in_map_iff in Hrow.
    destruct Hrow as (r & <- & _). now rewrite length_map, length_seq.
  - intros n i r Hr Hi. eexists. split; [|split].
    + change (map ?f rs) with (f <$> rs). rewrite list_lookup_fmap, Hr. reflexivity.
    + now rewrite (lookup_map_seq _ Nsteps 0 i Hi).
    + apply Efield_defined; [|exact Hi].
      pose proof x_pos as Hx. pose proof dx_pos as Hdx.
      pose proof (observation_grid_far x dx N fuel numTheta numPhi rs
                    (Rlt_le _ _ Hx) (Rlt_le _ _ Hdx) Hrs) as Hfar.
      rewrite Forall_forall in Hfar.
      assert (Hin : r ∈ rs) by (apply list_elem_of_lookup; eauto).
      specialize (Hfar r Hin). simpl in Hfar. lra.
Qed.

Lemma Erad_table_shape_witness :
  exists rs table,
    Erad 5 2 2 = Some (Ok (rs, table)) /\ length table = length rs /\
    (forall row, row ∈ table -> length row = Nsteps).
Proof.
  eexists. eexists. split.
  - apply (Erad_defined 5 2 2). apply robs_2_2. lia.
  - pose proof (Erad_table_shape 5 2 2 _ _
                  (Erad_defined 5 2 2 _ (robs_2_2 5 (le_n 5)))) as (Hlen & Hrows & _).
    split; [exact Hlen|exact Hrows].
Defined.

End ElectricRadInputs.

(** ** More on the radiating charge: the shape of the field *)

Module ElectricRadField.

Import ElectricRad ElectricRadProps ElectricRadAnimation.







(** In the plane through the charge across the oscillation the whole
    acceleration is across the line of sight. *)
Lemma a_perp_in_plane (r : vec) :
  vy r = 0 -> 0 < mag r -> a_perp r = mkvec 0 (A * omega ^ 2) 0.
Proof.
  destruct r as [rx ry rz]. cbn [vy]. intros -> Hr.
  unfold a_perp. rewrite (hat_of_nonzero _ Hr), Avec_components.
  unfold vsub, smul, dot, vdiv. cbn [vx vy vz].
  f_equal; field; lra.
Qed.

(** X6. At every location of the plane [y = 0] (other than the origin) and
    every step, the field that [Erad] computes is parallel to the axis of
    the oscillation: its x and z components are zero and its y component is
    [oofpez*q/(c^2 |r|) * A*omega^2 * cos(omega*(t_i + |r|/c)) * 13^6]. *)
Theorem Efield_in_plane (r : vec) (i : nat) :
  vy r = 0 -> 0 < mag r -> (i < Nsteps)%nat ->
  exists E, Efield r i = Ok E /\ vx E = 0 /\ vz E = 0 /\
    vy E = oofpez * q / (c ^ 2 * mag r) * (A * omega ^ 2)
           * cos (omega * (t_at i + mag r / c)) * 13 ^ 6.
Proof.
  intros Hy Hr Hi. eexists. split; [apply (Efield_defined r i Hr Hi)|].
  unfold Efield_at, Efield_value. rewrite (a_perp_in_plane r Hy Hr).
  unfold vmul, smul. cbn [vx vy vz]. repeat split; ring.
Qed.

Lemma Efield_in_plane_witness :
  exists E, Efield p_x 0 = Ok E /\ vx E = 0 /\ vz E = 0 /\
    vy E = oofpez * q / (c ^ 2 * mag p_x) * (A * omega ^ 2)
           * cos (omega * (t_at 0 + mag p_x / c)) * 13 ^ 6.
Proof.
  apply (Efield_in_plane p_x 0).
  - reflexivity.
  - rewrite mag_p_x. exact x_pos.
  - unfold Nsteps. lia.
Defined.

(** *** The size of the field *)

Lemma mag_smul_abs (s : R) (v : vec) : mag (smul s v) = Rabs s * mag v.
Proof.
  unfold mag, smul. cbn [vx vy vz].
  replace ((s * vx v) ^ 2 + (s * vy v) ^ 2 + (s * vz v) ^ 2)
    with (Rsqr s * (vx v ^ 2 + vy v ^ 2 + vz v ^ 2)) by (unfold Rsqr; ring).
  rewrite sqrt_mult_alt by apply Rle_0_sqr.
  now rewrite sqrt_Rsqr_abs.
Qed.

Lemma le_by_square (u v : R) : 0 <= u -> 0 <= v -> u * u <= v * v -> u <= v.
Proof. intros Hu Hv Hsq. destruct (Rle_lt_dec u v); [assumption|nra]. Qed.

(** The part of the acceleration across the line of sight is no longer than
    the acceleration. *)
Lemma mag_a_perp_le (r : vec) : 0 < mag r -> mag (a_perp r) <= A * omega ^ 2.
Proof.
  intros Hr. pose proof A_omega2_pos as HA.
  apply le_by_square; [apply mag_nonneg|lra|].
  rewrite mag_square.
  pose proof (mag_square r) as Hsq.
  unfold a_perp. rewrite (hat_of_nonzero r Hr), Avec_components.
  unfold vsub, smul, dot, vdiv. cbn [vx vy vz].
  set (M := mag r) in *.
  assert (HM : 0 < M * M) by nra.
  assert (Hh : (vy r / M) ^ 2 <= 1).
  { apply Rmult_le_reg_r with (r := M * M); [exact HM|].
    replace ((vy r / M) ^ 2 * (M * M)) with (vy r ^ 2) by (field; lra).
    rewrite Hsq. nra. }
  match goal with
  | |- ?l <= _ =>
      replace l with ((A * omega ^ 2) * (A * omega ^ 2)
                      * ((1 - (vy r / M) ^ 2)
                         + (vy r / M) ^ 2
                           * ((vx r ^ 2 + vy r ^ 2 + vz r ^ 2) / (M * M) - 1)))
        by (field; lra)
  end.
  rewrite <- Hsq.
  replace (M * M / (M * M) - 1) with 0 by (field; lra).
  set (W := A * omega ^ 2) in *.
  assert (0 <= (vy r / M) ^ 2) by nra. nra.
Qed.

(** X7. At every location other than the origin and every step, the field
    that [Erad] computes is no longer than
    [13^6 * oofpez * q * A * omega^2 / (c^2 |r|)]: the arrows shrink at least
    as [1/|r|]. *)
Theorem Efield_magnitude_bound (r : vec) (i : nat) :
  0 < mag r -> (i < Nsteps)%nat ->
  exists E, Efield r i = Ok E /\
    mag E <= 13 ^ 6 * (oofpez * q * (A * omega ^ 2)) / (c ^ 2 * mag r).
Proof.
  intros Hr Hi. eexists. split; [apply (Efield_defined r i Hr Hi)|].
  unfold Efield_at. rewrite Efield_value_multiple, mag_smul_abs.
  pose proof (mag_a_perp_le r Hr) as Hperp. pose proof (mag_nonneg (a_perp r)) as Hp0.
  pose proof A_omega2_pos as HA. pose proof c_pos as Hc.
  set (s := oofpez * q / (c ^ 2 * mag r)).
  assert (Hs : 0 < s).
  { unfold s. apply Rdiv_lt_0_compat; [unfold oofpez, q; lra|].
    apply Rmult_lt_0_compat; [apply pow_lt; exact Hc|exact Hr]. }
  pose proof (COS_bound (omega * (t_at i + mag r / c))) as [Hc1 Hc2].
  assert (Habs : Rabs (s * cos (omega * (t_at i + mag r / c)) * 13 ^ 6) <= s * 13 ^ 6).
  { apply Rabs_le. split; nra. }
  replace (13 ^ 6 * (oofpez * q * (A * omega ^ 2)) / (c ^ 2 * mag r))
    with (s * 13 ^ 6 * (A * omega ^ 2))
    by (unfold s; field; split; lra).
  apply Rmult_le_compat; try assumption. apply Rabs_pos.
Qed.

Lemma Efield_magnitude_bound_witness :
  exists E, Efield p_x 0 = Ok E /\
    mag E <= 13 ^ 6 * (oofpez * q * (A * omega ^ 2)) / (c ^ 2 * mag p_x).
Proof.
  apply (Efield_magnitude_bound p_x 0).
  - rewrite mag_p_x. exact x_pos.
  - unfold Nsteps. lia.
Defined.

End ElectricRadField.

(** ** More on the radiating charge: the source and the animation *)

Module ElectricRadScene.

Import ElectricRad ElectricRadProps ElectricRadAnimation.

Lemma lookup_rsource (i : nat) :
  (i < Nsteps)%nat ->
  rsource !! i = Some (mkvec 0 (A * cos (omega * t_at i)) 0).
Proof.
  intros Hi. unfold rsource, y, t, arange. rewrite !map_map.
  rewrite (lookup_map_seq _ Nsteps 0 i Hi). unfold t_at. simpl Nat.add.
  do 4 f_equal. ring.
Qed.

Lemma getitem_rsource (i : nat) :
  (i < Nsteps)%nat ->
  getitem rsource i = Ok (mkvec 0 (A * cos (omega * t_at i)) 0).
Proof. intros Hi. unfold getitem. now rewrite (lookup_rsource i Hi). Qed.

Lemma length_rsource : length rsource = Nsteps.
Proof. unfold rsource, y, t, arange. now rewrite !length_map, length_seq. Qed.

(** X8. The positions of the source: [rsource] has [Nsteps] entries, the
    first is the turning point [(0, A, 0)], and every entry lies on the y
    axis at [y = A*cos(omega*t_i)], within the amplitude [A] of the
    origin. *)
Theorem rsource_on_axis :
  length rsource = Nsteps /\
  rsource !! 0%nat = Some (mkvec 0 A 0) /\
  forall i, (i < Nsteps)%nat ->
    exists p, rsource !! i = Some p /\ vx p = 0 /\ vz p = 0 /\
      vy p = A * cos (omega * t_at i) /\ Rabs (vy p) <= A.
Proof.
  split; [exact length_rsource|]. split.
  - rewrite lookup_rsource by (unfold Nsteps; lia).
    unfold t_at. simpl INR. rewrite Rmult_0_l, Rmult_0_r, cos_0.
    do 2 f_equal. ring.
  - intros i Hi. eexists. split; [apply (lookup_rsource i Hi)|].
    cbn [vx vy vz]. repeat split.
    pose proof (COS_bound (omega * t_at i)) as [Hc1 Hc2].
    assert (HA : 0 < A) by (unfold A, a; lra).
    apply Rabs_le. split; nra.
Qed.

Lemma rsource_on_axis_witness :
  exists p, rsource !! 999%nat = Some p /\ vx p = 0 /\ vz p = 0 /\
    vy p = A * cos (omega * t_at 999) /\ Rabs (vy p) <= A.
Proof.
  destruct rsource_on_axis as (_ & _ & Hat).
  apply (Hat 999%nat). unfold Nsteps. lia.
Defined.

Lemma mag_scaled_on_axis (v s : R) : mag (vmul (mkvec 0 v 0) s) = Rabs (v * s).
Proof.
  unfold mag, vmul. cbn [vx vy vz].
  replace ((0 * s) ^ 2 + (v * s) ^ 2 + (0 * s) ^ 2) with (Rsqr (v * s))
    by (unfold Rsqr; ring).
  apply sqrt_Rsqr_abs.
Qed.

(** Reading the column [i] of a table whose rows all have an entry [i]. *)
Lemma collect_column (table : list (list vec)) (i : nat) :
  (forall row, row ∈ table -> is_Some (row !! i)) ->
  collect (fun row : list vec => getitem row i) table
  = Ok (map (fun row => default (mkvec 0 0 0) (row !! i)) table).
Proof.
  intros Hrows. apply collect_ok. intros row Hrow.
  destruct (Hrows row Hrow) as [v Hv]. unfold getitem. now rewrite Hv.
Qed.

(** X9. After [Erad] has computed its table, the animation loop indexes
    nothing out of range: it draws [Nsteps - 1] scenes; in the scene of the
    step [i] every arrow [n] gets the field of the location [n] at the time
    [t[i]], and the drawn electron is on the y axis at
    [A * cos(omega*t_i) * 10^11], at most 21.16 from the origin, nearer than
    every observation location. *)
Theorem animate_after_Erad (fuel : nat) (numTheta numPhi : Z)
  (rs : list vec) (table : list (list vec)) :
  Erad fuel numTheta numPhi = Some (Ok (rs, table)) ->
  exists frames,
    animate table = Ok frames /\ length frames = (Nsteps - 1)%nat /\
    forall k, (k < Nsteps - 1)%nat ->
      exists axes,
        frames !! k
        = Some (vmul (mkvec 0 (A * cos (omega * t_at (S k))) 0) (10 ^ 11), axes) /\
        length axes = length rs /\
        mag (vmul (mkvec 0 (A * cos (omega * t_at (S k))) 0) (10 ^ 11)) <= 21.16 /\
        forall n r, rs !! n = Some r ->
          axes !! n = Some (Efield_at r (t_at (S k))) /\
          mag (vmul (mkvec 0 (A * cos (omega * t_at (S k))) 0) (10 ^ 11)) < mag r.
Proof.
  intros HE. apply ElectricRadInputs.Erad_of_robs_ok in HE. destruct HE as [Hrs ->].
  set (table := map (fun r => map (fun i => Efield_at r (t_at i)) (seq 0 Nsteps)) rs).
  set (g := fun i : nat =>
         (vmul (mkvec 0 (A * cos (omega * t_at i)) 0) (10 ^ 11),
          map (fun row : list vec => default (mkvec 0 0 0) (row !! i)) table)).
  assert (Hcol : forall i row, (i < Nsteps)%nat -> row ∈ table ->
            exists r, r ∈ rs /\ row !! i = Some (Efield_at r (t_at i))).
  { intros i row Hi Hrow. apply list_elem_of_In, in_map_iff in Hrow.
    destruct Hrow as (r & <- & Hr). exists r. split; [now apply list_elem_of_In|].
    now rewrite (lookup_map_seq _ Nsteps 0 i Hi). }
  exists (map g (seq 1 (Nsteps - 1))). split; [|split].
  - unfold animate. apply collect_ok. intros i Hi.
    apply elem_of_seq in Hi.
    assert (Hlt : (i < Nsteps)%nat) by (unfold Nsteps in *; lia).
    unfold frame. rewrite (getitem_rsource i Hlt). cbn [mbind result_bind].
    rewrite collect_column; [reflexivity|].
    intros row Hrow. destruct (Hcol i row Hlt Hrow) as (r & _ & ->). eauto.
  - now rewrite length_map, length_seq.
  - intros k Hk.
    assert (Hlt : (S k < Nsteps)%nat) by (unfold Nsteps in *; lia).
    assert (Hmag : mag (vmul (mkvec 0 (A * cos (omega * t_at (S k))) 0) (10 ^ 11))
                   <= 21.16).
    { rewrite mag_scaled_on_axis.
      pose proof (COS_bound (omega * t_at (S k))) as [Hc1 Hc2].
      apply Rabs_le. unfold A, a. split; nra. }
    eexists. split; [|split; [|split]].
    + rewrite (lookup_map_seq g (Nsteps - 1) 1 k Hk). reflexivity.
    + unfold table. now rewrite !length_map.
    + exact Hmag.
    + intros n r Hr. split.
      * change (map ?f table) with (f <$> table). rewrite list_lookup_fmap.
        unfold table. change (map ?f rs) with (f <$> rs).
        rewrite list_lookup_fmap, Hr. cbn [fmap option_fmap option_map].
        now rewrite (lookup_map_seq _ Nsteps 0 (S k) Hlt).
      * pose proof x_pos as Hx. pose proof dx_pos as Hdx.
        pose proof (observation_grid_far x dx N fuel numTheta numPhi rs
                      (Rlt_le _ _ Hx) (Rlt_le _ _ Hdx) Hrs) as Hfar.
        rewrite Forall_forall in Hfar.
        assert (Hin : r ∈ rs) by (apply list_elem_of_lookup; eauto).
        specialize (Hfar r Hin). simpl in Hfar. rewrite x_value in Hfar.
        change (1 + k)%nat with (S k). lra.
Qed.

Lemma animate_after_Erad_witness :
  exists rs table frames,
    Erad 5 2 2 = Some (Ok (rs, table)) /\
    animate table = Ok frames /\ length frames = (Nsteps - 1)%nat.
Proof.
  eexists. eexists.
  destruct (animate_after_Erad 5 2 2 _ _
              (ElectricRadProps.Erad_defined 5 2 2 _
                 (ElectricRadProps.robs_2_2 5 (le_n 5))))
    as (frames & Hrun & Hlen & _).
  exists frames. split; [|split; [exact Hrun|exact Hlen]].
  apply (ElectricRadProps.Erad_defined 5 2 2). apply ElectricRadProps.robs_2_2. lia.
Defined.

End ElectricRadScene.

(** ** More on the double pendulum: the derivative function *)

Module DpendulumProps.

Import DoublePendulum PendulumTerms.

Lemma global_some (G : gmap string R) (name : string) (v : R) :
  G !! name = Some v -> global G name = Ok v.
Proof. intros H. unfold global. now rewrite H. Qed.

Lemma global_none (G : gmap string R) (name : string) :
  G !! name = None -> global G name = Raise (NameError name).
Proof. intros H. unfold global. now rewrite H. Qed.

(** X10. What [dpendulum] raises.  A state of fewer than four entries gives
    [IndexError], whatever the module-level variables.  With four entries
    or more, the first of [m1], [m2], [L2], [L1] (in this order) that is not
    bound gives the [NameError] of that name; with all four bound the
    function returns a vector of four entries. *)
Theorem dpendulum_outcome (G : gmap string R) (dep : list R) (t : R) :
  ((length dep < 4)%nat -> dpendulum G dep t = Raise IndexError) /\
  ((4 <= length dep)%nat ->
   (G !! "m1" = None -> dpendulum G dep t = Raise (NameError "m1")) /\
   (is_Some (G !! "m1") -> G !! "m2" = None ->
    dpendulum G dep t = Raise (NameError "m2")) /\
   (is_Some (G !! "m1") -> is_Some (G !! "m2") -> G !! "L2" = None ->
    dpendulum G dep t = Raise (NameError "L2")) /\
   (is_Some (G !! "m1") -> is_Some (G !! "m2") -> is_Some (G !! "L2") ->
    G !! "L1" = None -> dpendulum G dep t = Raise (NameError "L1")) /\
   (is_Some (G !! "m1") -> is_Some (G !! "m2") -> is_Some (G !! "L2") ->
    is_Some (G !! "L1") ->
    exists deriv, dpendulum G dep t = Ok deriv /\ length deriv = 4%nat)).
Proof.
  split.
  - intros Hlen.
    destruct dep as [|a [|b [|c [|d rest]]]]; try reflexivity.
    simpl in Hlen. lia.
  - intros Hlen.
    destruct dep as [|a [|b [|c [|d rest]]]]; try (simpl in Hlen; lia).
    unfold dpendulum. cbn [getitem lookup list_lookup mbind result_bind].
    repeat split.
    + intros H1. now rewrite (global_none G "m1" H1).
    + intros [v1 H1] H2.
      rewrite (global_some G "m1" v1 H1). cbn [mbind result_bind].
      now rewrite (global_none G "m2" H2).
    + intros [v1 H1] [v2 H2] H3.
      rewrite (global_some G "m1" v1 H1). cbn [mbind result_bind].
      rewrite (global_some G "m2" v2 H2). cbn [mbind result_bind].
      now rewrite (global_none G "L2" H3).
    + intros [v1 H1] [v2 H2] [v3 H3] H4.
      rewrite (global_some G "m1" v1 H1). cbn [mbind result_bind].
      rewrite (global_some G "m2" v2 H2). cbn [mbind result_bind].
      rewrite (global_some G "L2" v3 H3). cbn [mbind result_bind].
      now rewrite (global_none G "L1" H4).
    + intros [v1 H1] [v2 H2] [v3 H3] [v4 H4].
      rewrite (global_some G "m1" v1 H1). cbn [mbind result_bind].
      rewrite (global_some G "m2" v2 H2). cbn [mbind result_bind].
      rewrite (global_some G "L2" v3 H3). cbn [mbind result_bind].
      rewrite (global_some G "L1" v4 H4). cbn [mbind result_bind].
      eexists. split; reflexivity.
Qed.

Lemma dpendulum_outcome_witness :
  dpendulum cell9 [PI / 2; 0; 0] 0 = Raise IndexError /\
  dpendulum ∅ [PI / 2; 0; 0; 0] 0 = Raise (NameError "m1") /\
  dpendulum (<["m1" := 8]> ∅) [PI / 2; 0; 0; 0] 0 = Raise (NameError "m2").
Proof.
  split; [|split].
  - apply (dpendulum_outcome cell9 [PI / 2; 0; 0] 0). simpl. lia.
  - apply (dpendulum_outcome ∅ [PI / 2; 0; 0; 0] 0); [simpl; lia|].
    apply lookup_empty.
  - apply (dpendulum_outcome (<["m1" := 8]> ∅) [PI / 2; 0; 0; 0] 0); [simpl; lia| |].
    + exists 8. apply lookup_insert_eq.
    + rewrite lookup_insert_ne by discriminate. apply lookup_empty.
Defined.

Lemma dpendulum_value (G : gmap string R) (L1 L2 m1 m2 : R)
  (theta1 omega1 theta2 omega2 t : R) (rest : list R) :
  G !! "m1" = Some m1 -> G !! "m2" = Some m2 ->
  G !! "L1" = Some L1 -> G !! "L2" = Some L2 ->
  dpendulum G (theta1 :: omega1 :: theta2 :: omega2 :: rest) t
  = Ok [omega1;
        (- g * (2 * m1 + m2) * sin theta1 - m2 * g * sin (theta1 - 2 * theta2)
         + - 2 * sin (theta1 - theta2) * m2
           * (omega2 ^ 2 * L2 + omega1 ^ 2 * L1 * cos (theta1 - theta2)))
        / A3 L1 m1 m2 theta1 theta2;
        omega2;
        2 * sin (theta1 - theta2)
        * (omega1 ^ 2 * L1 * (m1 + m2) + g * (m1 + m2) * cos theta1
           + omega2 ^ 2 * L2 * m2 * cos (theta1 - theta2))
        / B2 L2 m1 m2 theta1 theta2].
Proof.
  intros H1 H2 H3 H4. unfold dpendulum.
  cbn [getitem lookup list_lookup mbind result_bind].
  rewrite (global_some G "m1" m1 H1). cbn [mbind result_bind].
  rewrite (global_some G "m2" m2 H2). cbn [mbind result_bind].
  rewrite (global_some G "L2" L2 H4). cbn [mbind result_bind].
  rewrite (global_some G "L1" L1 H3). cbn [mbind result_bind].
  reflexivity.
Qed.

(** X11. With positive lengths, a positive first mass and a second mass
    that is not negative, the two divisors of [dpendulum] are at least
    [2*L1*m1] and [2*L2*m1], so never zero, whatever the state: both
    accelerations are proper quotients. *)
Theorem dpendulum_divisors_positive (G : gmap string R) (L1 L2 m1 m2 : R)
  (theta1 omega1 theta2 omega2 t : R) :
  G !! "m1" = Some m1 -> G !! "m2" = Some m2 ->
  G !! "L1" = Some L1 -> G !! "L2" = Some L2 ->
  0 < L1 -> 0 < L2 -> 0 < m1 -> 0 <= m2 ->
  0 < 2 * L1 * m1 <= A3 L1 m1 m2 theta1 theta2 /\
  0 < 2 * L2 * m1 <= B2 L2 m1 m2 theta1 theta2 /\
  exists n1 n2,
    dpendulum G [theta1; omega1; theta2; omega2] t
    = Ok [omega1; n1 / A3 L1 m1 m2 theta1 theta2;
          omega2; n2 / B2 L2 m1 m2 theta1 theta2].
Proof.
  intros H1 H2 H3 H4 HL1 HL2 Hm1 Hm2.
  pose proof (COS_bound (2 * theta1 - 2 * theta2)) as [Hc1 Hc2].
  assert (Hm : 0 <= m2 * (1 - cos (2 * theta1 - 2 * theta2))) by nra.
  assert (HLm1 : 0 < L1 * m1) by nra.
  assert (HLm2 : 0 < L2 * m1) by nra.
  unfold A3, B2. split; [|split].
  - split; nra.
  - split; nra.
  - eexists. eexists.
    rewrite (dpendulum_value G L1 L2 m1 m2 _ _ _ _ t [] H1 H2 H3 H4).
    reflexivity.
Qed.

Lemma dpendulum_divisors_positive_witness :
  0 < 2 * 4 * 8 <= A3 4 8 2 (PI / 2) 0 /\
  0 < 2 * 4 * 8 <= B2 4 8 2 (PI / 2) 0 /\
  exists n1 n2,
    dpendulum cell9 [PI / 2; 0; 0; 0] 0
    = Ok [0; n1 / A3 4 8 2 (PI / 2) 0; 0; n2 / B2 4 8 2 (PI / 2) 0].
Proof.
  apply (dpendulum_divisors_positive cell9 4 4 8 2 (PI / 2) 0 0 0 0);
    try lra; unfold cell9, cell; now simplify_map_eq.
Defined.

(** The function returns only when the four names are bound. *)
Lemma dpendulum_ok_globals (G : gmap string R) (theta1 omega1 theta2 omega2 : R)
  (rest deriv : list R) (t : R) :
  dpendulum G (theta1 :: omega1 :: theta2 :: omega2 :: rest) t = Ok deriv ->
  exists m1 m2 L1 L2,
    G !! "m1" = Some m1 /\ G !! "m2" = Some m2 /\
    G !! "L1" = Some L1 /\ G !! "L2" = Some L2.
Proof.
  unfold dpendulum, global.
  cbn [getitem lookup list_lookup mbind result_bind].
  destruct (G !! "m1") as [m1|]; cbn [mbind result_bind]; [|discriminate].
  destruct (G !! "m2") as [m2|]; cbn [mbind result_bind]; [|discriminate].
  destruct (G !! "L2") as [L2|]; cbn [mbind result_bind]; [|discriminate].
  destruct (G !! "L1") as [L1|]; cbn [mbind result_bind]; [|discriminate].
  intros _. exists m1, m2, L1, L2. tauto.
Qed.

(** X12. The dynamics are mirror symmetric: negating the two angles and the
    two angular speeds negates the derivative that [dpendulum] returns. *)
Theorem dpendulum_mirror (G : gmap string R) (dep deriv : list R) (t : R) :
  dpendulum G dep t = Ok deriv ->
  dpendulum G (map Ropp dep) t = Ok (map Ropp deriv).
Proof.
  intros Hd.
  destruct dep as [|theta1 [|omega1 [|theta2 [|omega2 rest]]]];
    try discriminate.
  destruct (dpendulum_ok_globals G _ _ _ _ rest deriv t Hd)
    as (m1 & m2 & L1 & L2 & H1 & H2 & H3 & H4).
  rewrite (dpendulum_value G L1 L2 m1 m2 _ _ _ _ t rest H1 H2 H3 H4) in Hd.
  injection Hd as <-. cbn [map].
  rewrite (dpendulum_value G L1 L2 m1 m2 _ _ _ _ t (map Ropp rest) H1 H2 H3 H4).
  unfold A3, B2.
  replace (- theta1 - 2 * - theta2) with (- (theta1 - 2 * theta2)) by ring.
  replace (- theta1 - - theta2) with (- (theta1 - theta2)) by ring.
  replace (2 * - theta1 - 2 * - theta2) with (- (2 * theta1 - 2 * theta2)) by ring.
  rewrite !sin_neg, !cos_neg.
  match goal with
  | |- Ok [_; ?u; _; ?v] = Ok [_; ?u'; _; ?v'] =>
      replace u with u' by (unfold Rdiv; ring);
      replace v with v' by (unfold Rdiv; ring)
  end.
  reflexivity.
Qed.

Lemma dpendulum_mirror_witness :
  exists deriv,
    dpendulum cell9 [PI / 2; 0; 0; 0] 0 = Ok deriv /\
    dpendulum cell9 (map Ropp [PI / 2; 0; 0; 0]) 0 = Ok (map Ropp deriv).
Proof.
  destruct (DoublePendulumProps.dpendulum_total 4 4 8 2 [PI / 2; 0; 0; 0] 0)
    as (deriv & Hd & _); [reflexivity|].
  exists deriv. split; [exact Hd|].
  apply (dpendulum_mirror cell9 [PI / 2; 0; 0; 0] deriv 0). exact Hd.
Defined.

(** X13. Every position with both rods vertical (the sines of both angles
    zero: hanging, inverted or folded) and both speeds zero is an
    equilibrium: for positive masses and lengths [dpendulum] returns the
    zero vector there. *)
Theorem dpendulum_equilibrium (G : gmap string R) (L1 L2 m1 m2 theta1 theta2 t : R) :
  G !! "m1" = Some m1 -> G !! "m2" = Some m2 ->
  G !! "L1" = Some L1 -> G !! "L2" = Some L2 ->
  0 < L1 -> 0 < L2 -> 0 < m1 -> 0 < m2 ->
  sin theta1 = 0 -> sin theta2 = 0 ->
  dpendulum G [theta1; 0; theta2; 0] t = Ok [0; 0; 0; 0].
Proof.
  intros H1 H2 H3 H4 _ _ _ _ Hs1 Hs2.
  rewrite (dpendulum_value G L1 L2 m1 m2 _ _ _ _ t [] H1 H2 H3 H4).
  assert (Hd : sin (theta1 - theta2) = 0)
    by (rewrite sin_minus, Hs1, Hs2; ring).
  assert (Hd2 : sin (theta1 - 2 * theta2) = 0)
    by (rewrite sin_minus, sin_2a, Hs1, Hs2; ring).
  rewrite Hs1, Hd, Hd2.
  match goal with
  | |- Ok [_; ?u; _; ?v] = Ok [_; ?u'; _; ?v'] =>
      replace u with u' by (unfold Rdiv; ring);
      replace v with v' by (unfold Rdiv; ring)
  end.
  reflexivity.
Qed.

Lemma dpendulum_equilibrium_witness :
  dpendulum cell9 [0; 0; PI; 0] 0 = Ok [0; 0; 0; 0].
Proof.
  apply (dpendulum_equilibrium cell9 4 4 8 2 0 PI 0);
    try lra; try apply sin_0; try apply sin_PI;
    unfold cell9, cell; now simplify_map_eq.
Defined.

End DpendulumProps.

(** ** More on the double pendulum: the time loop of [pcalc] *)

Module PcalcProps.

Import DoublePendulum PendulumTerms DoublePendulumProps.

Lemma state_at_some (st : locals) (j : nat) (a b c d : R) :
  theta1arr st !! j = Some a -> omega1arr st !! j = Some b ->
  theta2arr st !! j = Some c -> omega2arr st !! j = Some d ->
  state_at st j = Some [a; b; c; d].
Proof. intros Ha Hb Hc Hd. unfold state_at. now rewrite Ha, Hb, Hc, Hd. Qed.

Lemma state_at_same (st st' : locals) (j : nat) :
  theta1arr st' !! j = theta1arr st !! j -> omega1arr st' !! j = omega1arr st !! j ->
  theta2arr st' !! j = theta2arr st !! j -> omega2arr st' !! j = omega2arr st !! j ->
  state_at st' j = state_at st j.
Proof. intros Ha Hb Hc Hd. unfold state_at. now rewrite Ha, Hb, Hc, Hd. Qed.

Section Recurrence.

Variable RK4 : (list R -> R -> result (list R)) -> list R -> R -> R -> result (list R).
Variable G : gmap string R.
Variables (theta1_0 theta2_0 omega1_0 omega2_0 t0 h : R) (Nsteps : nat).

Hypothesis RK4_defined : forall y u,
  length y = 4%nat -> exists y', RK4 (dpendulum G) y u h = Ok y' /\ length y' = 4%nat.

Local Abbreviation loop_inv :=
  (loop_inv theta1_0 theta2_0 omega1_0 omega2_0 t0 h Nsteps).

(** The entries below the counter are linked by the stepper, and the last
    written entry is the current state. *)
Local Abbreviation linked := (fun (n : nat) (st : locals) =>
  state_at st (Nat.pred n) = Some (data st) /\
  forall j, (S j < n)%nat ->
    exists y y', state_at st j = Some y /\ state_at st (S j) = Some y' /\
                 RK4 (dpendulum G) y (t0 + INR j * h) h = Ok y').

Lemma time_step_value (n : nat) (st : locals) (d0 d1 d2 d3 : R) :
  (n < Nsteps)%nat -> loop_inv n st ->
  RK4 (dpendulum G) (data st) (t st) h = Ok [d0; d1; d2; d3] ->
  time_step RK4 G h st n
  = Ok (mklocals [d0; d1; d2; d3] (t st + h) (<[n := t st + h]> (tarr st))
          (<[n := d0]> (theta1arr st)) (<[n := d2]> (theta2arr st))
          (<[n := d1]> (omega1arr st)) (<[n := d3]> (omega2arr st))).
Proof.
  intros Hn (_ & _ & (Lt & L1 & L2 & L3 & L4) & _) Hstep.
  unfold time_step. rewrite Hstep. cbn [mbind result_bind].
  rewrite (setitem_ok (tarr st)) by lia.
  cbn [getitem lookup list_lookup mbind result_bind].
  rewrite (setitem_ok (theta1arr st)) by lia. cbn [mbind result_bind].
  rewrite (setitem_ok (omega1arr st)) by lia. cbn [mbind result_bind].
  rewrite (setitem_ok (theta2arr st)) by lia. cbn [mbind result_bind].
  rewrite (setitem_ok (omega2arr st)) by lia. cbn [mbind result_bind].
  reflexivity.
Qed.

Lemma time_step_linked (n : nat) (st : locals) :
  (1 <= n < 1 + (Nsteps - 1))%nat -> loop_inv n st /\ linked n st ->
  exists st', time_step RK4 G h st n = Ok st' /\ loop_inv (S n) st' /\ linked (S n) st'.
Proof.
  intros Hn [Hinv [Hlast Hlinks]].
  assert (Hlt : (n < Nsteps)%nat) by lia.
  destruct (time_step_inv RK4 G theta1_0 theta2_0 omega1_0 omega2_0 t0 h Nsteps
              RK4_defined n st Hn Hinv) as (st' & Hst' & Hinv').
  pose proof Hinv as (Hdata & Ht & (Lt & L1 & L2 & L3 & L4) & _).
  destruct (RK4_defined (data st) (t st) Hdata) as (data' & Hstep & Hlen).
  destruct data' as [|d0 [|d1 [|d2 [|d3 [|? ?]]]]]; try discriminate.
  rewrite (time_step_value n st d0 d1 d2 d3 Hlt Hinv Hstep) in Hst'.
  apply Ok_inj in Hst'. exists st'.
  split; [now rewrite (time_step_value n st d0 d1 d2 d3 Hlt Hinv Hstep), Hst'|].
  split; [exact Hinv'|].
  assert (Hother : forall j, j <> n -> state_at st' j = state_at st j).
  { intros j Hj. rewrite <- Hst'. apply state_at_same;
      cbn [theta1arr theta2arr omega1arr omega2arr];
      apply list_lookup_insert_ne; lia. }
  assert (Hnew : state_at st' n = Some [d0; d1; d2; d3]).
  { rewrite <- Hst'. apply state_at_some;
      cbn [theta1arr theta2arr omega1arr omega2arr];
      apply list_lookup_insert_eq; lia. }
  split.
  - cbn [Nat.pred]. rewrite Hnew, <- Hst'. reflexivity.
  - intros j Hj. destruct (decide (S j = n)) as [Heq|Hne].
    + exists (data st), [d0; d1; d2; d3].
      rewrite Heq, Hnew, (Hother j) by lia.
      replace j with (Nat.pred n) at 1 by lia.
      split; [exact Hlast|]. split; [reflexivity|].
      replace (t0 + INR j * h) with (t st); [exact Hstep|].
      rewrite Ht, <- Heq, S_INR. ring.
    + destruct (Hlinks j) as (y & y' & Hy & Hy' & Hrun); [lia|].
      exists y, y'. rewrite !Hother by lia. tauto.
Qed.

Lemma pcalc_from_linked :
  (0 < Nsteps)%nat ->
  exists st,
    pcalc_from RK4 G theta1_0 theta2_0 omega1_0 omega2_0 t0 h Nsteps
    = Ok (theta1arr st, omega1arr st, theta2arr st, omega2arr st, tarr st) /\
    loop_inv Nsteps st /\ linked Nsteps st.
Proof.
  intros Hpos. unfold pcalc_from.
  rewrite !setitem_ok by (rewrite length_zeros; exact Hpos).
  cbn [mbind result_bind].
  destruct (for_each_range (fun n st => loop_inv n st /\ linked n st)
              (time_step RK4 G h) (Nsteps - 1) 1
              (mklocals [theta1_0; omega1_0; theta2_0; omega2_0] t0
                 (<[0%nat := t0]> (zeros Nsteps))
                 (<[0%nat := theta1_0]> (zeros Nsteps))
                 (<[0%nat := theta2_0]> (zeros Nsteps))
                 (<[0%nat := omega1_0]> (zeros Nsteps))
                 (<[0%nat := omega2_0]> (zeros Nsteps))))
    as (st & Hrun & Hinv).
  - split; [|split].
    + unfold DoublePendulum.loop_inv.
      cbn [data t tarr theta1arr theta2arr omega1arr omega2arr].
      rewrite !length_insert, !length_zeros.
      rewrite !list_lookup_insert_eq by (rewrite length_zeros; exact Hpos).
      split; [reflexivity|]. split; [simpl; ring|]. split; [tauto|]. split; [tauto|].
      intros j Hj. replace j with 0%nat by lia.
      rewrite list_lookup_insert_eq by (rewrite length_zeros; exact Hpos).
      f_equal. simpl. ring.
    + cbn [Nat.pred data]. apply state_at_some;
        cbn [theta1arr theta2arr omega1arr omega2arr];
        apply list_lookup_insert_eq; rewrite length_zeros; exact Hpos.
    + intros j Hj. lia.
  - intros n st Hn Hinv. now apply time_step_linked.
  - rewrite Hrun. cbn [mbind result_bind].
    exists st. split; [reflexivity|].
    now replace (1 + (Nsteps - 1))%nat with Nsteps in Hinv by lia.
Qed.

End Recurrence.

(** X14. For a positive number of steps and a stepper that is defined on
    the states of the pendulum, the arrays that the time loop of [pcalc]
    returns hold a trajectory of the stepper: the state of index 0 is the
    initial state, and for every [j] with [j+1 < Nsteps] the state of index
    [j+1] is what the stepper returns for the derivative [dpendulum], the
    state of index [j], the time [tarr[j] = t0 + j*h] and the step [h]: one
    call for each new entry. *)
Theorem pcalc_from_recurrence
  (RK4 : (list R -> R -> result (list R)) -> list R -> R -> R -> result (list R))
  (G : gmap string R) (theta1_0 theta2_0 omega1_0 omega2_0 t0 h : R)
  (Nsteps : nat) :
  (0 < Nsteps)%nat ->
  (forall y u, length y = 4%nat ->
     exists y', RK4 (dpendulum G) y u h = Ok y' /\ length y' = 4%nat) ->
  exists st,
    pcalc_from RK4 G theta1_0 theta2_0 omega1_0 omega2_0 t0 h Nsteps
    = Ok (theta1arr st, omega1arr st, theta2arr st, omega2arr st, tarr st) /\
    state_at st 0 = Some [theta1_0; omega1_0; theta2_0; omega2_0] /\
    forall j, (S j < Nsteps)%nat ->
      exists y y',
        state_at st j = Some y /\ state_at st (S j) = Some y' /\
        tarr st !! j = Some (t0 + INR j * h) /\
        RK4 (dpendulum G) y (t0 + INR j * h) h = Ok y'.
Proof.
  intros Hpos Hstep.
  destruct (pcalc_from_linked RK4 G theta1_0 theta2_0 omega1_0 omega2_0 t0 h Nsteps
              Hstep Hpos)
    as (st & Hrun & Hinv & _ & Hlinks).
  destruct Hinv as (_ & _ & _ & (_ & Z1 & Z2 & Z3 & Z4) & Htimes).
  exists st. split; [exact Hrun|]. split.
  - now apply state_at_some.
  - intros j Hj. destruct (Hlinks j Hj) as (y & y' & Hy & Hy' & Hrk).
    exists y, y'. split; [exact Hy|]. split; [exact Hy'|].
    split; [apply Htimes; lia|exact Hrk].
Qed.

Lemma pcalc_from_recurrence_witness :
  exists st,
    pcalc_from Ode.RK4 cell9 (PI / 2) 0 0 0 0 1e-4 2
    = Ok (theta1arr st, omega1arr st, theta2arr st, omega2arr st, tarr st) /\
    state_at st 0 = Some [PI / 2; 0; 0; 0] /\
    exists y y',
      state_at st 0 = Some y /\ state_at st 1 = Some y' /\
      tarr st !! 0%nat = Some (0 + INR 0 * 1e-4) /\
      Ode.RK4 (dpendulum cell9) y (0 + INR 0 * 1e-4) 1e-4 = Ok y'.
Proof.
  destruct (pcalc_from_recurrence Ode.RK4 cell9 (PI / 2) 0 0 0 0 1e-4 2)
    as (st & Hrun & H0 & Hlinks).
  - lia.
  - intros y u Hy. unfold cell9. now apply RK4_dpendulum_defined.
  - exists st. split; [exact Hrun|]. split; [exact H0|].
    apply (Hlinks 0%nat). lia.
Defined.

Lemma time_step_raises
  (RK4 : (list R -> R -> result (list R)) -> list R -> R -> R -> result (list R))
  (G : gmap string R) (h : R) (st : locals) (n : nat) (e : exn) :
  RK4 (dpendulum G) (data st) (t st) h = Raise e ->
  time_step RK4 G h st n = Raise e.
Proof. intros He. unfold time_step. now rewrite He. Qed.

(** X15. The edges of the time loop of [pcalc].  With no step at all the
    first assignment [tarr[0] = t] raises [IndexError].  With one step the
    stepper is never called and the arrays hold the initial state alone.
    With two steps or more, an exception of the stepper at the initial state
    (such as the [NameError] of an unbound mass) is the exception of
    [pcalc]. *)
Theorem pcalc_from_edges
  (RK4 : (list R -> R -> result (list R)) -> list R -> R -> R -> result (list R))
  (G : gmap string R) (theta1_0 theta2_0 omega1_0 omega2_0 t0 h : R) :
  pcalc_from RK4 G theta1_0 theta2_0 omega1_0 omega2_0 t0 h 0 = Raise IndexError /\
  pcalc_from RK4 G theta1_0 theta2_0 omega1_0 omega2_0 t0 h 1
  = Ok ([theta1_0], [omega1_0], [theta2_0], [omega2_0], [t0]) /\
  forall e Nsteps, (2 <= Nsteps)%nat ->
    RK4 (dpendulum G) [theta1_0; omega1_0; theta2_0; omega2_0] t0 h = Raise e ->
    pcalc_from RK4 G theta1_0 theta2_0 omega1_0 omega2_0 t0 h Nsteps = Raise e.
Proof.
  split; [reflexivity|]. split; [reflexivity|].
  intros e Nsteps HN He. unfold pcalc_from.
  rewrite !setitem_ok by (rewrite length_zeros; lia).
  cbn [mbind result_bind].
  destruct Nsteps as [|[|N']]; [lia|lia|].
  replace (S (S N') - 1)%nat with (S N') by lia.
  cbn [seq for_each].
  rewrite (time_step_raises RK4 G h _ 1 e); [reflexivity|exact He].
Qed.

Lemma pcalc_from_edges_witness :
  pcalc_from Ode.RK4 ∅ (PI / 2) 0 0 0 0 1e-4 2 = Raise (NameError "m1").
Proof.
  destruct (pcalc_from_edges Ode.RK4 ∅ (PI / 2) 0 0 0 0 1e-4) as (_ & _ & Herr).
  apply Herr; [lia|]. reflexivity.
Defined.

End PcalcProps.

(** ** The animation of the double pendulum *)

Module AnimationProps.

Import DoublePendulum PendulumAnimation.

Lemma draw_all_ok (scene : nat -> outcome frame) (g : nat -> frame) (ns : list nat) :
  (forall n, n ∈ ns -> scene n = Drawn (g n)) ->
  draw_all scene ns = Drawn (map g ns).
Proof.
  induction ns as [|n ns IH]; intros Hs; cbn [draw_all map]; [reflexivity|].
  rewrite (Hs n) by apply list_elem_of_here. cbn [mbind outcome_bind].
  rewrite IH; [reflexivity|].
  intros k Hk. apply Hs. now apply list_elem_of_further.
Qed.

Lemma draw_all_fails (scene : nat -> outcome frame) (g : nat -> frame)
  (ns ms : list nat) (n : nat) (e : error) :
  (forall k, k ∈ ns -> scene k = Drawn (g k)) -> scene n = Failed e ->
  draw_all scene (ns ++ n :: ms) = Failed e.
Proof.
  induction ns as [|k ns IH]; intros Hs Hn; cbn [draw_all app].
  - now rewrite Hn.
  - rewrite (Hs k) by apply list_elem_of_here. cbn [mbind outcome_bind].
    rewrite IH; [reflexivity| |exact Hn].
    intros j Hj. apply Hs. now apply list_elem_of_further.
Qed.

Lemma draw_all_drawn (scene : nat -> outcome frame) (ns : list nat)
  (fs : list frame) (f : frame) :
  draw_all scene ns = Drawn fs -> f ∈ fs -> exists n, n ∈ ns /\ scene n = Drawn f.
Proof.
  revert fs. induction ns as [|n ns IH]; intros fs Hrun Hf; cbn [draw_all] in Hrun.
  - injection Hrun as <-. inversion Hf.
  - destruct (scene n) as [f0|] eqn:Hn; cbn [mbind outcome_bind] in Hrun;
      [|discriminate].
    destruct (draw_all scene ns) as [fs0|] eqn:Hns; cbn [mbind outcome_bind] in Hrun;
      [|discriminate].
    injection Hrun as <-. apply elem_of_cons in Hf. destruct Hf as [->|Hf].
    + exists n. split; [apply list_elem_of_here|exact Hn].
    + destruct (IH fs0 eq_refl Hf) as (k & Hk & Hsk).
      exists k. split; [now apply list_elem_of_further|exact Hsk].
Qed.

Lemma lookup_map (g : R -> R) (p : list R) (n : nat) :
  map g p !! n = g <$> p !! n.
Proof. change (map g p) with (g <$> p). apply list_lookup_fmap. Qed.

(** An entry of a sum or difference of two arrays made from the angles: it
    pairs the entry [n] of the first with the entry [n] of the second, or
    with its only entry when the shapes differ. *)
Lemma broadcast_entry (f : R -> R -> R) (g1 g2 : R -> R) (p1 p2 w : list R)
  (n : nat) (c a1 : R) :
  broadcast f (map g1 p1) (map g2 p2) = Drawn w ->
  w !! n = Some c -> p1 !! n = Some a1 ->
  exists a2,
    p2 !! (if decide (length p1 = length p2) then n else 0%nat) = Some a2 /\
    c = f (g1 a1) (g2 a2).
Proof.
  unfold broadcast. rewrite !length_map.
  destruct (decide (length p1 = length p2)) as [Heq|Hne].
  - intros Hw Hc Ha. injection Hw as <-.
    rewrite lookup_zip_with, !lookup_map, Ha in Hc. cbn in Hc.
    destruct (p2 !! n) as [a2|]; [|discriminate].
    injection Hc as <-. now exists a2.
  - intros Hw Hc Ha. destruct p1 as [|a [|a' p1]].
    + discriminate.
    + destruct n; [|discriminate]. injection Ha as <-.
      assert (Hw' : w = map (f (g1 a)) (map g2 p2))
        by (destruct p2 as [|b [|b' p2]]; cbn [map] in Hw |- *; congruence).
      rewrite Hw', !lookup_map in Hc.
      destruct (p2 !! 0%nat) as [a2|]; [|discriminate].
      cbn in Hc. injection Hc as <-. now exists a2.
    + destruct p2 as [|b [|b' p2]]; cbn [map] in Hw; try discriminate.
      injection Hw as <-. exists b. split; [reflexivity|].
      change (_ :: _ :: map ?h (map ?k ?l)) with (map h (map k (a :: a' :: l))) in Hc.
      rewrite !lookup_map, Ha in Hc. cbn in Hc. now injection Hc as <-.
Qed.

Lemma mag_polar (L a : R) : mag (mkvec (L * sin a) (- L * cos a) 0) = Rabs L.
Proof.
  unfold mag. cbn [vx vy vz].
  pose proof (sin2_cos2 a) as H. unfold Rsqr in H.
  replace ((L * sin a) ^ 2 + (- L * cos a) ^ 2 + 0 ^ 2)
    with (Rsqr L * (sin a * sin a + cos a * cos a)) by (unfold Rsqr; ring).
  rewrite H, Rmult_1_r. apply sqrt_Rsqr_abs.
Qed.

(** Both rods keep their lengths in every scene, and the second ball stays
    within the two lengths of the pivot. *)
Lemma scene_of_rigid (L1 L2 a1 a2 : R) :
  mag (ball1_pos (scene_of L1 L2 a1 a2)) = Rabs L1 /\
  mag (rod2_axis (scene_of L1 L2 a1 a2)) = Rabs L2 /\
  mag (ball2_pos (scene_of L1 L2 a1 a2)) <= Rabs L1 + Rabs L2.
Proof.
  unfold scene_of. cbn [ball1_pos rod2_axis ball2_pos]. split; [|split].
  - apply mag_polar.
  - rewrite <- (mag_polar L2 a2). unfold vsub. cbn [vx vy vz].
    do 2 f_equal; ring.
  - pose proof (Rabs_pos L1) as H1. pose proof (Rabs_pos L2) as H2.
    apply ElectricRadField.le_by_square; [apply mag_nonneg|lra|].
    rewrite mag_square. cbn [vx vy vz].
    pose proof (sin2_cos2 a1) as Hs1. pose proof (sin2_cos2 a2) as Hs2.
    unfold Rsqr in Hs1, Hs2.
    pose proof (COS_bound (a1 - a2)) as [Hc1 Hc2]. rewrite cos_minus in Hc1, Hc2.
    set (C := cos a1 * cos a2 + sin a1 * sin a2) in *.
    replace ((L1 * sin a1 + L2 * sin a2) ^ 2 + (- L1 * cos a1 - L2 * cos a2) ^ 2 + 0 ^ 2)
      with (L1 * L1 * (sin a1 * sin a1 + cos a1 * cos a1)
            + L2 * L2 * (sin a2 * sin a2 + cos a2 * cos a2)
            + 2 * (L1 * L2) * C) by (unfold C; ring).
    rewrite Hs1, Hs2.
    replace ((Rabs L1 + Rabs L2) * (Rabs L1 + Rabs L2))
      with (Rsqr (Rabs L1) + Rsqr (Rabs L2) + 2 * Rabs (L1 * L2))
      by (rewrite Rabs_mult; unfold Rsqr; ring).
    rewrite <- !Rsqr_abs. unfold Rsqr.
    assert (Hp : L1 * L2 * C <= Rabs (L1 * L2)).
    { destruct (Rcase_abs (L1 * L2)) as [Hneg|Hpos].
      - rewrite (Rabs_left _ Hneg). nra.
      - rewrite (Rabs_right _ Hpos). nra. }
    lra.
Qed.

(** A scene that is drawn is the scene of an angle of each array. *)
Lemma draw_scene (L1 L2 : R) (p1 p2 x2array y2array : list R) (n : nat) (f : frame) :
  broadcast Rplus (map (fun a => L1 * sin a) p1) (map (fun a => L2 * sin a) p2)
  = Drawn x2array ->
  broadcast Rminus (map (fun a => - L1 * cos a) p1) (map (fun a => L2 * cos a) p2)
  = Drawn y2array ->
  draw (map (fun a => L1 * sin a) p1) (map (fun a => - L1 * cos a) p1)
       x2array y2array n = Drawn f ->
  exists a1 a2, a1 ∈ p1 /\ a2 ∈ p2 /\ f = scene_of L1 L2 a1 a2.
Proof.
  intros Hx Hy Hd. unfold draw, getitem in Hd. rewrite !lookup_map in Hd.
  destruct (p1 !! n) as [a1|] eqn:Ha1; cbn in Hd; [|discriminate].
  destruct (x2array !! n) as [x2|] eqn:Hx2; cbn in Hd; [|discriminate].
  destruct (y2array !! n) as [y2|] eqn:Hy2; cbn in Hd; [|discriminate].
  injection Hd as <-.
  destruct (broadcast_entry Rplus _ _ p1 p2 x2array n x2 a1 Hx Hx2 Ha1)
    as (a2 & Ha2 & ->).
  destruct (broadcast_entry Rminus _ _ p1 p2 y2array n y2 a1 Hy Hy2 Ha1)
    as (a2' & Ha2' & ->).
  rewrite Ha2 in Ha2'. injection Ha2' as <-.
  exists a1, a2. split; [apply list_elem_of_lookup; eauto|].
  split; [apply list_elem_of_lookup; eauto|]. reflexivity.
Qed.

(** X16. Whenever [animation] draws its scenes, the module-level [L1] and
    [L2] are bound and every scene is rigid: each is the scene of an angle
    of [p1] and an angle of [p2], the first rod starts at the pivot and ends
    at the first ball, at the distance [|L1|]; the second rod starts at the
    first ball and has the length [|L2|]; and the second ball is no farther
    than [|L1| + |L2|] from the pivot. *)
Theorem animation_rigid (G : gmap string R) (p1 p2 : list R) (m1 m2 : R)
  (frames : list frame) :
  animation G p1 m1 p2 m2 = Drawn frames ->
  exists L1 L2,
    G !! "L1" = Some L1 /\ G !! "L2" = Some L2 /\
    forall f, f ∈ frames ->
      (exists a1 a2, a1 ∈ p1 /\ a2 ∈ p2 /\ f = scene_of L1 L2 a1 a2) /\
      rod1_axis f = ball1_pos f /\ rod2_pos f = ball1_pos f /\
      rod2_axis f = vsub (ball2_pos f) (ball1_pos f) /\
      mag (ball1_pos f) = Rabs L1 /\ mag (rod2_axis f) = Rabs L2 /\
      mag (ball2_pos f) <= Rabs L1 + Rabs L2.
Proof.
  unfold animation, global. cbv zeta.
  destruct (G !! "L1") as [L1|]; cbn [lift mbind outcome_bind]; [|discriminate].
  destruct (G !! "L2") as [L2|]; cbn [lift mbind outcome_bind]; [|discriminate].
  destruct (broadcast Rplus _ _) as [x2array|] eqn:Hx;
    cbn [mbind outcome_bind]; [|discriminate].
  destruct (broadcast Rminus _ _) as [y2array|] eqn:Hy;
    cbn [mbind outcome_bind]; [|discriminate].
  destruct (draw _ _ x2array y2array 0) as [first|] eqn:H0;
    cbn [mbind outcome_bind]; [|discriminate].
  destruct (draw_all _ _) as [rest|] eqn:Hrest;
    cbn [mbind outcome_bind]; [|discriminate].
  intros Hfr. injection Hfr as <-.
  exists L1, L2. split; [reflexivity|]. split; [reflexivity|].
  intros f Hf.
  assert (Hscene : exists a1 a2, a1 ∈ p1 /\ a2 ∈ p2 /\ f = scene_of L1 L2 a1 a2).
  { apply elem_of_cons in Hf. destruct Hf as [->|Hf].
    - exact (draw_scene L1 L2 p1 p2 x2array y2array 0 first Hx Hy H0).
    - destruct (draw_all_drawn _ _ rest f Hrest Hf) as (n & _ & Hn).
      exact (draw_scene L1 L2 p1 p2 x2array y2array n f Hx Hy Hn). }
  split; [exact Hscene|].
  destruct Hscene as (a1 & a2 & _ & _ & ->).
  pose proof (scene_of_rigid L1 L2 a1 a2) as (Hr1 & Hr2 & Hr3).
  repeat split; assumption.
Qed.

(** *** Arrays of one length *)

(** The scene of the entries [n] of two arrays of angles. *)
Local Abbreviation scene_at := (fun (L1 L2 : R) (p1 p2 : list R) (n : nat) =>
  scene_of L1 L2 (default 0 (p1 !! n)) (default 0 (p2 !! n))).

Section EqualLengths.

Variables (L1 L2 : R) (p1 p2 : list R).
Hypothesis same_length : length p1 = length p2.

Local Abbreviation x1array := (map (fun a => L1 * sin a) p1).
Local Abbreviation y1array := (map (fun a => - L1 * cos a) p1).
Local Abbreviation x2array :=
  (zip_with Rplus x1array (map (fun a => L2 * sin a) p2)).
Local Abbreviation y2array :=
  (zip_with Rminus y1array (map (fun a => L2 * cos a) p2)).

Lemma broadcast_same (f : R -> R -> R) (g1 g2 : R -> R) :
  broadcast f (map g1 p1) (map g2 p2) = Drawn (zip_with f (map g1 p1) (map g2 p2)).
Proof.
  unfold broadcast. rewrite !length_map.
  destruct (decide (length p1 = length p2)); [reflexivity|contradiction].
Qed.

Lemma draw_inside (n : nat) :
  (n < length p1)%nat ->
  draw x1array y1array x2array y2array n = Drawn (scene_at L1 L2 p1 p2 n).
Proof.
  intros Hn.
  destruct (lookup_lt_is_Some_2 p1 n Hn) as [a1 Ha1].
  destruct (lookup_lt_is_Some_2 p2 n ltac:(lia)) as [a2 Ha2].
  unfold draw, getitem.
  rewrite !lookup_zip_with, !lookup_map, Ha1, Ha2. reflexivity.
Qed.

Lemma draw_outside (n : nat) :
  (length p1 <= n)%nat ->
  draw x1array y1array x2array y2array n = Failed (Exn IndexError).
Proof.
  intros Hn. unfold draw, getitem.
  rewrite !lookup_map, (proj2 (lookup_ge_None p1 n) Hn). reflexivity.
Qed.

End EqualLengths.

Lemma animation_same_length (G : gmap string R) (L1 L2 : R) (p1 p2 : list R)
  (m1 m2 : R) :
  G !! "L1" = Some L1 -> G !! "L2" = Some L2 -> length p1 = length p2 ->
  animation G p1 m1 p2 m2
  = (first ← draw (map (fun a => L1 * sin a) p1) (map (fun a => - L1 * cos a) p1)
              (zip_with Rplus (map (fun a => L1 * sin a) p1)
                 (map (fun a => L2 * sin a) p2))
              (zip_with Rminus (map (fun a => - L1 * cos a) p1)
                 (map (fun a => L2 * cos a) p2)) 0;
     rest ← draw_all
              (draw (map (fun a => L1 * sin a) p1) (map (fun a => - L1 * cos a) p1)
                 (zip_with Rplus (map (fun a => L1 * sin a) p1)
                    (map (fun a => L2 * sin a) p2))
                 (zip_with Rminus (map (fun a => - L1 * cos a) p1)
                    (map (fun a => L2 * cos a) p2)))
              (seq 1 (Z.to_nat 100000 - 1));
     Drawn (first :: rest)).
Proof.
  intros H1 H2 Hlen. unfold animation, global. cbv zeta.
  rewrite H1, H2. cbn [lift mbind outcome_bind].
  rewrite !(broadcast_same p1 p2 Hlen). cbn [mbind outcome_bind].
  now rewrite DoublePendulumProps.pcalc_Nsteps.
Qed.

(** With enough entries every scene is drawn. *)
Lemma animation_drawn (G : gmap string R) (L1 L2 : R) (p1 p2 : list R) (m1 m2 : R) :
  G !! "L1" = Some L1 -> G !! "L2" = Some L2 -> length p1 = length p2 ->
  (Z.to_nat 100000 <= length p1)%nat ->
  animation G p1 m1 p2 m2
  = Drawn (map (scene_at L1 L2 p1 p2) (seq 0 (Z.to_nat 100000))).
Proof.
  intros H1 H2 Hlen Hlong.
  rewrite (animation_same_length G L1 L2 p1 p2 m1 m2 H1 H2 Hlen).
  assert (Hpos : (0 < Z.to_nat 100000)%nat) by lia.
  generalize dependent (Z.to_nat 100000). intros N Hlong Hpos.
  rewrite (draw_inside L1 L2 p1 p2 Hlen 0) by lia. cbn [mbind outcome_bind].
  rewrite (draw_all_ok _ (scene_at L1 L2 p1 p2)).
  - cbn [mbind outcome_bind]. destruct N as [|N]; [lia|].
    now replace (S N - 1)%nat with N by lia.
  - intros n Hn. apply elem_of_seq in Hn.
    apply (draw_inside L1 L2 p1 p2 Hlen). lia.
Qed.

(** X17. For two arrays of angles of one length, shorter than the 100000
    steps that [animation] fixes for itself, and [L1], [L2] bound,
    [animation] raises [IndexError]: at once when the arrays are empty,
    otherwise in the pass of the loop whose index is the length. *)
Theorem animation_short_arrays (G : gmap string R) (L1 L2 : R) (p1 p2 : list R)
  (m1 m2 : R) :
  G !! "L1" = Some L1 -> G !! "L2" = Some L2 -> length p1 = length p2 ->
  (length p1 < Z.to_nat 100000)%nat ->
  animation G p1 m1 p2 m2 = Failed (Exn IndexError).
Proof.
  intros H1 H2 Hlen Hshort.
  rewrite (animation_same_length G L1 L2 p1 p2 m1 m2 H1 H2 Hlen).
  generalize dependent (Z.to_nat 100000). intros N Hshort.
  destruct (decide (length p1 = 0%nat)) as [Hz|Hnz].
  - rewrite (draw_outside L1 L2 p1 p2 0) by lia. reflexivity.
  - rewrite (draw_inside L1 L2 p1 p2 Hlen 0) by lia. cbn [mbind outcome_bind].
    replace (N - 1)%nat with ((length p1 - 1) + S (N - 1 - length p1))%nat by lia.
    rewrite seq_app. replace (1 + (length p1 - 1))%nat with (length p1) by lia.
    cbn [seq].
    rewrite (draw_all_fails _ (scene_at L1 L2 p1 p2) _ _ (length p1) (Exn IndexError)).
    + reflexivity.
    + intros k Hk. apply elem_of_seq in Hk.
      apply (draw_inside L1 L2 p1 p2 Hlen). lia.
    + apply draw_outside. lia.
Qed.

Lemma animation_short_arrays_witness :
  animation cell9 [PI / 2; 0] 8 [0; 0] 2 = Failed (Exn IndexError).
Proof.
  apply (animation_short_arrays cell9 4 4 [PI / 2; 0] [0; 0] 8 2).
  - unfold cell9, cell. now simplify_map_eq.
  - unfold cell9, cell. now simplify_map_eq.
  - reflexivity.
  - simpl length. lia.
Defined.

(** X18. For two arrays of angles of one length with at least 100000
    entries, and [L1], [L2] bound, [animation] draws exactly 100000 scenes:
    the scene of index [n] is the scene of the entries [n] of the two
    arrays; entries from 100000 on are never read. *)
Theorem animation_draws (G : gmap string R) (L1 L2 : R) (p1 p2 : list R)
  (m1 m2 : R) :
  G !! "L1" = Some L1 -> G !! "L2" = Some L2 -> length p1 = length p2 ->
  (Z.to_nat 100000 <= length p1)%nat ->
  exists frames,
    animation G p1 m1 p2 m2 = Drawn frames /\
    length frames = Z.to_nat 100000 /\
    forall n a1 a2, (n < Z.to_nat 100000)%nat ->
      p1 !! n = Some a1 -> p2 !! n = Some a2 ->
      frames !! n = Some (scene_of L1 L2 a1 a2).
Proof.
  intros H1 H2 Hlen Hlong. eexists.
  split; [apply (animation_drawn G L1 L2 p1 p2 m1 m2 H1 H2 Hlen Hlong)|].
  generalize dependent (Z.to_nat 100000). intros N Hlong.
  split; [now rewrite length_map, length_seq|].
  intros n a1 a2 Hn Ha1 Ha2.
  rewrite (ElectricRadProps.lookup_map_seq _ N 0 n Hn). cbn [Nat.add].
  now rewrite Ha1, Ha2.
Qed.

Lemma animation_draws_witness :
  exists frames,
    animation cell9 (replicate (Z.to_nat 100000) 0) 8
      (replicate (Z.to_nat 100000) 0) 2 = Drawn frames /\
    length frames = Z.to_nat 100000.
Proof.
  destruct (animation_draws cell9 4 4 (replicate (Z.to_nat 100000) 0)
              (replicate (Z.to_nat 100000) 0) 8 2)
    as (frames & Hrun & Hlen & _).
  - unfold cell9, cell. now simplify_map_eq.
  - unfold cell9, cell. now simplify_map_eq.
  - reflexivity.
  - rewrite length_replicate. apply le_n.
  - exists frames. split; [exact Hrun|exact Hlen].
Defined.

(** X19. The arrays of angles that [pcalc] returns are what [animation]
    needs: with [L1] and [L2] bound and a stepper that is defined on the
    states of the pendulum, [animation] called on the first and third array
    of [pcalc] raises nothing and draws one scene for each entry of the
    trajectory. *)
Theorem animation_after_pcalc
  (RK4 : (list R -> R -> result (list R)) -> list R -> R -> R -> result (list R))
  (G : gmap string R) (L1 L2 a1 a2 a3 a4 m1 m2 : R) :
  G !! "L1" = Some L1 -> G !! "L2" = Some L2 ->
  (forall y u, length y = 4%nat ->
     exists y', RK4 (dpendulum G) y u 1e-4 = Ok y' /\ length y' = 4%nat) ->
  exists th1 om1 th2 om2 time frames,
    pcalc RK4 G a1 a2 a3 a4 = Ok (th1, om1, th2, om2, time) /\
    animation G th1 m1 th2 m2 = Drawn frames /\
    length frames = length time /\
    forall n b1 b2, th1 !! n = Some b1 -> th2 !! n = Some b2 ->
      frames !! n = Some (scene_of L1 L2 b1 b2).
Proof.
  intros H1 H2 Hstep. unfold pcalc. cbv zeta.
  rewrite DoublePendulumProps.pcalc_Nsteps.
  assert (Hpos : (0 < Z.to_nat 100000)%nat) by lia.
  destruct (DoublePendulumProps.pcalc_from_inv RK4 G (PI / 2) 0 0 0 0 1e-4
              (Z.to_nat 100000) Hstep Hpos)
    as (st & Hrun & _ & _ & (Lt & Lth1 & Lth2 & _) & _).
  exists (theta1arr st), (omega1arr st), (theta2arr st), (omega2arr st), (tarr st).
  eexists. split; [exact Hrun|].
  split; [apply (animation_drawn G L1 L2 _ _ m1 m2 H1 H2); [congruence|lia]|].
  generalize dependent (Z.to_nat 100000). intros N Hpos Hrun Lt Lth1 Lth2.
  split; [rewrite length_map, length_seq; congruence|].
  intros n b1 b2 Hb1 Hb2.
  assert (Hn : (n < N)%nat) by (rewrite <- Lth1; eapply lookup_lt_Some; eauto).
  rewrite (ElectricRadProps.lookup_map_seq _ N 0 n Hn). cbn [Nat.add].
  now rewrite Hb1, Hb2.
Qed.

Lemma animation_after_pcalc_witness :
  exists th1 om1 th2 om2 time frames,
    pcalc Ode.RK4 cell9 4 8 4 2 = Ok (th1, om1, th2, om2, time) /\
    animation cell9 th1 8 th2 2 = Drawn frames /\
    length frames = length time.
Proof.
  destruct (animation_after_pcalc Ode.RK4 cell9 4 4 4 8 4 2 8 2)
    as (th1 & om1 & th2 & om2 & time & frames & Hp & Ha & Hl & _).
  - unfold cell9, cell. now simplify_map_eq.
  - unfold cell9, cell. now simplify_map_eq.
  - intros y u Hy. unfold cell9. now apply DoublePendulumProps.RK4_dpendulum_defined.
  - exists th1, om1, th2, om2, time, frames. tauto.
Defined.

Lemma broadcast_mismatch (f : R -> R -> R) (u v : list R) :
  length u <> length v -> length u <> 1%nat -> length v <> 1%nat ->
  broadcast f u v = Failed ValueError.
Proof.
  intros Hne Hu Hv. unfold broadcast.
  destruct (decide (length u = length v)); [contradiction|].
  destruct u as [|a [|a' u]]; destruct v as [|b [|b' v]];
    try reflexivity; simpl in *; lia.
Qed.

(** X20. What [animation] raises before it draws anything: the [NameError]
    of [L1] when that name is not bound, whatever the arguments; the
    [NameError] of [L2] when only [L1] is bound; and, with both bound,
    numpy's [ValueError] when the two arrays of angles differ in length and
    neither has exactly one entry. *)
Theorem animation_setup_errors (G : gmap string R) (p1 p2 : list R) (m1 m2 : R) :
  (G !! "L1" = None -> animation G p1 m1 p2 m2 = Failed (Exn (NameError "L1"))) /\
  (is_Some (G !! "L1") -> G !! "L2" = None ->
   animation G p1 m1 p2 m2 = Failed (Exn (NameError "L2"))) /\
  (is_Some (G !! "L1") -> is_Some (G !! "L2") ->
   length p1 <> length p2 -> length p1 <> 1%nat -> length p2 <> 1%nat ->
   animation G p1 m1 p2 m2 = Failed ValueError).
Proof.
  unfold animation, global. cbv zeta. split; [|split].
  - intros ->. reflexivity.
  - intros [L1 ->] ->. reflexivity.
  - intros [L1 ->] [L2 ->] Hne Hp1 Hp2. cbn [lift mbind outcome_bind].
    rewrite (broadcast_mismatch Rplus) by (rewrite ?length_map; assumption).
    reflexivity.
Qed.

Lemma animation_setup_errors_witness :
  animation ∅ [0] 8 [0] 2 = Failed (Exn (NameError "L1")) /\
  animation cell9 [0; 0] 8 [0; 0; 0] 2 = Failed ValueError.
Proof.
  split.
  - apply (animation_setup_errors ∅ [0] [0] 8 2). apply lookup_empty.
  - apply (animation_setup_errors cell9 [0; 0] [0; 0; 0] 8 2);
      try (simpl; lia); unfold cell9, cell; eexists; now simplify_map_eq.
Defined.

(** The scenes of the pendulum hanging at rest, 100000 times over, are rigid. *)
Lemma animation_rigid_witness :
  exists frames L1 L2,
    animation cell9 (replicate (Z.to_nat 100000) 0) 8
      (replicate (Z.to_nat 100000) 0) 2 = Drawn frames /\
    cell9 !! "L1" = Some L1 /\ cell9 !! "L2" = Some L2 /\
    forall f, f ∈ frames ->
      mag (ball1_pos f) = Rabs L1 /\ mag (rod2_axis f) = Rabs L2.
Proof.
  assert (H1 : cell9 !! "L1" = Some 4) by (unfold cell9, cell; now simplify_map_eq).
  assert (H2 : cell9 !! "L2" = Some 4) by (unfold cell9, cell; now simplify_map_eq).
  pose proof (animation_drawn cell9 4 4 (replicate (Z.to_nat 100000) 0)
                (replicate (Z.to_nat 100000) 0) 8 2 H1 H2 eq_refl
                ltac:(rewrite length_replicate; apply le_n)) as Hrun.
  destruct (animation_rigid cell9 _ _ 8 2 _ Hrun) as (L1 & L2 & HL1 & HL2 & Hr).
  eexists. exists L1, L2. split; [exact Hrun|]. split; [exact HL1|].
  split; [exact HL2|].
  intros f Hf. destruct (Hr f Hf) as (_ & _ & _ & _ & Hb1 & Hb2 & _).
  split; assumption.
Defined.

End AnimationProps.
